(** * BFAST, per-pixel decomposition with missing values

    A shallow embedding of [bfast/python/base_nans.py] (class
    [BFASTPython]: [fit], [fit_single], [build_seasonal_model]) and the
    properties its design document states about it.

    Conventions.
    - A 1-D float array is a [list float] (binary64, Rocq's primitive
      floats; [np.nan] is [nan]); a 1-D integer array is a [list Z].
    - A 2-D float array is a record of its column count and its rows,
      so that an array with no rows still has a shape.
    - A Python exception is a value of [exn]; a computation that may
      raise returns [result].
    - The numerical collaborators (STL, EFP, Breakpoints, statsmodels'
      OLS, [partition_matrix], [omit_nans], the trigonometric functions)
      are the fields of the class [External]: the embedding fixes how
      [fit_single] calls them, not what they compute.
      A collaborator that raises ends [fit_single] with its exception;
      such runs return nothing and are not represented.
    - [print] calls guarded by [verbose] have no effect on any result and
      are left out. *)

From Stdlib Require Import ZArith Lia Bool String.
From Stdlib Require Import Floats.PrimFloat Uint63.
From stdpp Require Import base list.

Local Open Scope Z_scope.

(** ** Exceptions and fallible computations *)

Inductive exn : Type :=
| UnknownSeasonalModel        (* ValueError("Seasonal model is unknown, ...") *)
| ZeroSizeReduction           (* ValueError: zero-size array to reduction *)
| ShapeMismatch               (* ValueError: could not broadcast *)
| NegativeDimensions          (* ValueError: negative dimensions *)
| IndexError                  (* index out of bounds / mask of wrong length *)
| UnboundLocalError (name : string)
| ZeroDivisionError.

Inductive result (A : Type) : Type :=
| Ok (a : A)
| Raise (e : exn).
Arguments Ok {A} a.
Arguments Raise {A} e.

Definition bind {A B} (m : result A) (k : A -> result B) : result B :=
  match m with
  | Ok a => k a
  | Raise e => Raise e
  end.

Notation "'let*' x ':=' m 'in' k" := (bind m (fun x => k))
  (at level 10, x pattern, m at level 100, k at level 200).

Definition is_ok {A} (r : result A) : bool :=
  match r with Ok _ => true | Raise _ => false end.

(** Reading a local variable that may not have been assigned. *)
Definition read {A} (name : string) (slot : option A) : result A :=
  match slot with
  | Some a => Ok a
  | None => Raise (UnboundLocalError name)
  end.

Fixpoint mapM {A B} (f : A -> result B) (l : list A) : result (list B) :=
  match l with
  | [] => Ok []
  | a :: r => let* b := f a in let* bs := mapM f r in Ok (b :: bs)
  end.

(** ** NumPy arrays *)

Abbreviation vec := (list float).
Abbreviation ivec := (list Z).

Record ndarray2 : Type := Arr2 { ncols : nat; rows : list vec }.

Definition nrows (x : ndarray2) : nat := length (rows x).

(** [x[:, None]]: a 1-D array seen as one column. *)
Definition column (v : vec) : ndarray2 := Arr2 1 (map (fun a => [a]) v).

(** Column [j] of a 2-D array. *)
Definition col (j : nat) (x : ndarray2) : vec :=
  map (fun r => nth j r PrimFloat.zero) (rows x).

Definition fone : float := 1%float.
Definition fzero : float := 0%float.
Definition fminus_one : float := (-1)%float.

(** [np.zeros(n)], [np.repeat(v, n)]. *)
Definition np_zeros (n : nat) : vec := replicate n fzero.
Definition np_repeat {A} (v : A) (n : nat) : list A := replicate n v.

(** An index of a Python sequence of length [n]: negative indices count
    from the end, anything outside [-n, n) raises. *)
Definition norm_index (n : nat) (i : Z) : result nat :=
  if (0 <=? i) && (i <? Z.of_nat n) then Ok (Z.to_nat i)
  else if (- Z.of_nat n <=? i) && (i <? 0) then Ok (Z.to_nat (i + Z.of_nat n))
  else Raise IndexError.

Definition getitem {A} (a : list A) (i : Z) : result A :=
  let* k := norm_index (length a) i in
  match a !! k with
  | Some x => Ok x
  | None => Raise IndexError
  end.

(** [a[idx]] for an integer index array [idx]. *)
Definition take_idx {A} (a : list A) (idx : ivec) : result (list A) :=
  mapM (getitem a) idx.

(** [a[mask]] for a boolean mask, which must have the length of [a]. *)
Fixpoint mask_filter {A} (a : list A) (mask : list bool) : list A :=
  match a, mask with
  | x :: a', b :: mask' => if b then x :: mask_filter a' mask' else mask_filter a' mask'
  | _, _ => []
  end.

Definition take_mask {A} (a : list A) (mask : list bool) : result (list A) :=
  if Nat.eqb (length a) (length mask) then Ok (mask_filter a mask)
  else Raise IndexError.

(** Broadcasting a 1-D value to length [n]: same length, or length one. *)
Definition broadcast_to {A} (n : nat) (v : list A) : result (list A) :=
  if Nat.eqb (length v) n then Ok v
  else match v with
       | [x] => Ok (replicate n x)
       | _ => Raise ShapeMismatch
       end.

(** [a[idx] = v]: the value is broadcast to the index array, the indices
    are checked, then the stores happen left to right. *)
Definition scatter {A} (a : list A) (ks : list nat) (v : list A) : list A :=
  foldl (fun acc kx => <[fst kx := snd kx]> acc) a (zip ks v).

Definition setitem_idx {A} (a : list A) (idx : ivec) (v : list A) : result (list A) :=
  let* vb := broadcast_to (length idx) v in
  let* ks := mapM (norm_index (length a)) idx in
  Ok (scatter a ks vb).

(** Storing into an [int32] array wraps around. *)
Definition int32 (z : Z) : Z := (z + 2 ^ 31) mod 2 ^ 32 - 2 ^ 31.

(** [a[:k] = v] on an [int32] array [a]: the slice has [min k (len a)]
    slots, the value is broadcast to it. *)
Definition setitem_prefix (a : ivec) (k : nat) (v : ivec) : result ivec :=
  let m := Nat.min k (length a) in
  let* vb := broadcast_to m v in
  Ok (map int32 vb ++ drop m a).

(** [a - b] on 1-D arrays, with broadcasting. *)
Definition zip_sub (a b : vec) : vec :=
  zip_with PrimFloat.sub a b.

Definition np_sub (a b : vec) : result vec :=
  if Nat.eqb (length a) (length b) then Ok (zip_sub a b)
  else match a, b with
       | _, [y] => Ok (map (fun x => PrimFloat.sub x y) a)
       | [x], _ => Ok (map (fun y => PrimFloat.sub x y) b)
       | _, _ => Raise ShapeMismatch
       end.

(** [np.max] and [np.min] over a non-empty 1-D array propagate NaN. *)
Definition fmax (a b : float) : float :=
  if PrimFloat.is_nan a then a
  else if PrimFloat.is_nan b then b
  else if PrimFloat.ltb a b then b else a.

Definition fmin (a b : float) : float :=
  if PrimFloat.is_nan a then a
  else if PrimFloat.is_nan b then b
  else if PrimFloat.ltb b a then b else a.

Definition np_ptp (c : vec) : result float :=
  match c with
  | [] => Raise ZeroSizeReduction
  | x :: r => Ok (PrimFloat.sub (foldl fmax x r) (foldl fmin x r))
  end.

(** ** [statsmodels.api.add_constant]

    The call [sm.add_constant(data)] uses the defaults [prepend=True,
    has_constant='skip']: a 1-D input becomes one column; if some column
    is already a non-zero constant ([np.ptp(x, axis=0) == 0] and
    [np.all(x != 0.0, axis=0)]) the data is returned as it is; otherwise
    a column of ones is put in front.  [np.ptp] reduces along the rows
    and raises when there is none (and at least one column). *)
Definition is_nonzero_const (c : vec) : result bool :=
  let* p := np_ptp c in
  Ok (PrimFloat.eqb p fzero && forallb (fun a => negb (PrimFloat.eqb a fzero)) c).

Definition add_constant (x : ndarray2) : result ndarray2 :=
  let* flags := mapM (fun j => is_nonzero_const (col j x)) (seq 0 (ncols x)) in
  if existsb id flags then Ok x
  else Ok (Arr2 (S (ncols x)) (map (fun r => fone :: r) (rows x))).

(** ** Helpers of [bfast.python.utils] *)

(** Modelled from the spec: [create_nan_map] of [bfast/python/utils.py],
    which is not part of the sources at hand.  The index map is the
    ordered sequence of the original indices of the non-missing
    observations: [index_map[k]] is the original position of the [k]-th
    non-missing observation. *)
Fixpoint nan_map_from (i : Z) (y : vec) : ivec :=
  match y with
  | [] => []
  | x :: r =>
      if PrimFloat.is_nan x then nan_map_from (i + 1) r
      else i :: nan_map_from (i + 1) r
  end.

Definition create_nan_map (y : vec) : ivec := nan_map_from 0 y.

(** Modelled from the spec: [different] of [bfast/python/utils.py], which
    is not part of the sources at hand.  Breakpoint sets are ordered
    sequences of integers compared by structural equality: same length,
    same values in order. *)
Fixpoint same_values (a b : ivec) : bool :=
  match a, b with
  | [], [] => true
  | x :: a', y :: b' => (x =? y) && same_values a' b'
  | _, _ => false
  end.

Definition different (a b : ivec) : bool :=
  negb (Nat.eqb (length a) (length b) && same_values a b).

(** ** The collaborators *)

(** What a [Breakpoints] object is read for: its [breakpoints] attribute
    and the labels returned by its [breakfactor()] method. *)
Record BreakpointsObj : Type := {
  breakpoints : ivec;
  breakfactor : ivec
}.

Class External : Type := {
  (* STL(Yt_n, frequency).seasonal *)
  STL_seasonal : vec -> Z -> vec;
  (* EFP(X, y, h).sctest() *)
  EFP_sctest : ndarray2 -> vec -> float -> float;
  (* Breakpoints(X, y, h=h, max_breaks=max_breaks) *)
  Breakpoints : ndarray2 -> vec -> float -> option Z -> BreakpointsObj;
  omit_nans : vec -> vec -> vec * vec;
  partition_matrix : ivec -> ndarray2 -> ndarray2;
  (* sm.OLS(endog, exog, missing='drop').fit() and its predict method *)
  OLS_results : Type;
  OLS_fit : vec -> ndarray2 -> OLS_results;
  predict : OLS_results -> option ndarray2 -> vec;
  np_cos : float -> float;
  np_sin : float -> float
}.

(** ** The estimator object *)

Record BFASTPython : Type := {
  frequency : Z;
  h : float;
  season_type : string;
  max_iter : Z;
  max_breaks : option Z;
  level : float;
  verbose : Z
}.

(** The constructor's defaults. *)
Definition BFASTPython_init (frequency : Z) : BFASTPython :=
  {| frequency := frequency;
     h := 0x1.3333333333333p-3%float;       (* 0.15 *)
     season_type := "dummy";
     max_iter := 10;
     max_breaks := None;
     level := 0x1.999999999999ap-5%float;   (* 0.05 *)
     verbose := 0 |}.

(** An integer as a float (exact below [2^53]). *)
Definition Z2f (z : Z) : float :=
  if z <? 0 then PrimFloat.opp (PrimFloat.of_uint63 (Uint63.of_Z (- z)))
  else PrimFloat.of_uint63 (Uint63.of_Z z).

Definition np_pi : float := 0x1.921fb54442d18p+1%float.

(** [np.eye(n)] as rows. *)
Definition np_eye (n : nat) : list vec :=
  map (fun i => map (fun j => if Nat.eqb i j then fone else fzero) (seq 0 n)) (seq 0 n).

(** [np.tile(block, (k, 1))] as rows. *)
Definition np_tile_rows (block : list vec) (k : nat) : list vec :=
  concat (replicate k block).

(** [int(np.ceil(nrow / f))] for [f > 0] (the quotient of two array
    sizes is far from the range where binary64 division could round
    across an integer). *)
Definition ceil_div (n f : Z) : Z := (n + f - 1) / f.

Section Model.
Context {ext : External}.

(** ** [build_seasonal_model] *)

Definition harmonic_row (w : float) (t : Z) : vec :=
  let a := PrimFloat.mul (PrimFloat.mul (PrimFloat.mul 2%float np_pi) (Z2f t)) w in
  [ np_cos a; np_sin a;
    np_cos (PrimFloat.mul a 2%float); np_sin (PrimFloat.mul a 2%float);
    np_cos (PrimFloat.mul a 3%float); np_sin (PrimFloat.mul a 3%float) ].

Definition dummy_eye_box (f : Z) : list vec :=
  np_eye (Z.to_nat (f - 1)) ++ [np_repeat fminus_one (Z.to_nat (f - 1))].

Definition build_seasonal_model (self : BFASTPython) (ti : vec)
  : result (option ndarray2) :=
  let f := frequency self in
  let nrow := length ti in
  if String.eqb (season_type self) "harmonic" then
    if f =? 0 then Raise ZeroDivisionError
    else
      let w := PrimFloat.div 1%float (Z2f f) in
      let tl := map Z.of_nat (seq 1 nrow) in
      Ok (Some (Arr2 6 (map (harmonic_row w) tl)))
  else if String.eqb (season_type self) "dummy" then
    if f - 1 <? 0 then Raise NegativeDimensions
    else
      let eye_box := dummy_eye_box f in
      let n_boxes := Z.to_nat (ceil_div (Z.of_nat nrow) f) in
      let smod := np_tile_rows eye_box n_boxes in
      let smod := take nrow smod in
      let* smod := add_constant (Arr2 (Z.to_nat (f - 1)) smod) in
      Ok (Some smod)
  else if String.eqb (season_type self) "none" then
    Ok None
  else Raise UnknownSeasonalModel.

(** ** [fit_single] *)

(** What [fit_single] computes before its loop and never assigns again. *)
Record frame : Type := {
  nrow_n : nat;
  nan_map : ivec;
  ti : vec;
  Yt : vec;
  smod : option ndarray2;     (* assigned only if [smod_n is not None] *)
  nrow : nat
}.

(** The variables the loop assigns.  [Tt] and [Nt] are assigned only
    inside the loop body. *)
Record locals : Type := {
  Vt_bp : ivec;
  Wt_bp : ivec;
  CheckTimeTt : ivec;
  CheckTimeSt : ivec;
  i_iter : Z;
  St : option vec;
  Tt : option vec;
  Nt : option vec
}.

Record pixel_out : Type := {
  Tt_n : vec;
  St_n : vec;
  Nt_n : vec;
  Vt_bp_arr : ivec;
  Wt_bp_arr : ivec;
  n_Vt_bp : nat;
  n_Wt_bp : nat
}.

Definition seasonal_requested (self : BFASTPython) : bool :=
  String.eqb (season_type self) "dummy" || String.eqb (season_type self) "harmonic".

(** Lines 169-195. *)
Definition prelude (self : BFASTPython) (Yt_n ti_n : vec) (smod_n : option ndarray2)
  : result (frame * locals) :=
  let nrow_n := length Yt_n in
  let St_n :=
    if seasonal_requested self then STL_seasonal Yt_n (frequency self)
    else np_zeros nrow_n in
  let nan_map := create_nan_map Yt_n in
  let* ti := take_idx ti_n nan_map in
  let* St := take_idx St_n nan_map in
  let* Yt := take_idx Yt_n nan_map in
  let* smod :=
    match smod_n with
    | Some m => let* r := take_idx (rows m) nan_map in Ok (Some (Arr2 (ncols m) r))
    | None => Ok None
    end in
  Ok ({| nrow_n := nrow_n; nan_map := nan_map; ti := ti; Yt := Yt;
         smod := smod; nrow := length Yt |},
      {| Vt_bp := []; Wt_bp := []; CheckTimeTt := [0]; CheckTimeSt := [0];
         i_iter := 1; St := Some St; Tt := None; Nt := None |}).

(** The [while] condition of line 197. *)
Definition loop_cond (self : BFASTPython) (st : locals) : bool :=
  (different (Vt_bp st) (CheckTimeTt st) || different (Vt_bp st) (CheckTimeTt st))
  && (i_iter st <? max_iter self).

(** Lines 204-240: the trend of one iteration and its breakpoints. *)
Definition trend_step (self : BFASTPython) (fr : frame) (St : vec)
  : result (vec * ivec) :=
  let* Vt := np_sub (Yt fr) St in
  let* X := add_constant (column (ti fr)) in
  let p_Vt := EFP_sctest X Vt (h self) in
  let* bp_Vt :=
    if PrimFloat.leb p_Vt (level self) then
      let '(ti1, Vt1) := omit_nans (ti fr) Vt in
      let* X1 := add_constant (column ti1) in
      Ok (Some (Breakpoints X1 Vt1 (h self) (max_breaks self)))
    else Ok None in
  let no_change :=
    let fm0 := OLS_fit Vt (column (ti fr)) in
    Ok (predict fm0 (Some (column (ti fr))), []) in
  match bp_Vt with
  | None => no_change
  | Some bp =>
      if Nat.eqb (length (breakpoints bp)) 0 then no_change
      else
        let part := breakfactor bp in
        let* ti_obs := take_mask (ti fr) (map (fun y => negb (PrimFloat.is_nan y)) (Yt fr)) in
        let* Xc := add_constant (column ti_obs) in
        let X1 := partition_matrix part Xc in
        let fm1 := OLS_fit (Yt fr) X1 in
        Ok (predict fm1 None, breakpoints bp)
  end.

(** Lines 243-279: the season of one iteration and its breakpoints. *)
Definition season_step (self : BFASTPython) (fr : frame) (Tt : vec) (Wt_bp : ivec)
  : result (vec * ivec) :=
  if String.eqb (season_type self) "none" then
    Ok (np_zeros (nrow fr), Wt_bp)
  else
    let* Wt := np_sub (Yt fr) Tt in
    let* smod := read "smod" (smod fr) in
    let p_Wt := EFP_sctest smod Wt (h self) in
    let bp_Wt :=
      if PrimFloat.leb p_Wt (level self)
      then Some (Breakpoints smod Wt (h self) (max_breaks self))
      else None in
    let no_change :=
      let sm0 := OLS_fit Wt smod in
      Ok (predict sm0 None, []) in
    match bp_Wt with
    | None => no_change
    | Some bp =>
        if Nat.eqb (length (breakpoints bp)) 0 then no_change
        else
          let part := breakfactor bp in
          let* X_sm1 :=
            if seasonal_requested self then Ok (partition_matrix part smod)
            else Raise (UnboundLocalError "X_sm1") in
          let sm1 := OLS_fit Wt X_sm1 in
          let* Wt_bp := take_idx (nan_map fr) (breakpoints bp) in
          Ok (predict sm1 None, Wt_bp)
    end.

(** Lines 198-283: one pass through the loop body. *)
Definition body (self : BFASTPython) (fr : frame) (st : locals) : result locals :=
  let CheckTimeTt := Vt_bp st in
  let CheckTimeSt := Wt_bp st in
  let* St0 := read "St" (St st) in
  let* (Tt, Vt_bp) := trend_step self fr St0 in
  let* (St, Wt_bp) := season_step self fr Tt (Wt_bp st) in
  let* d := np_sub (Yt fr) Tt in
  let* Nt := np_sub d St in
  Ok {| Vt_bp := Vt_bp; Wt_bp := Wt_bp;
        CheckTimeTt := CheckTimeTt; CheckTimeSt := CheckTimeSt;
        i_iter := i_iter st + 1;
        St := Some St; Tt := Some Tt; Nt := Some Nt |}.

(** The [while] loop, unrolled at most [fuel] times; it returns the
    number of passes through the body with the final variables.
    [fit_single] gives it [max_iter - 1] unrollings, which the counter
    [i_iter] never lets it use up ([while_loop_exit] below). *)
Fixpoint while_loop (self : BFASTPython) (fr : frame) (fuel : nat) (st : locals)
  : result (nat * locals) :=
  if loop_cond self st then
    match fuel with
    | O => Ok (O, st)
    | S fuel' =>
        let* st' := body self fr st in
        let* (n, st'') := while_loop self fr fuel' st' in
        Ok (S n, st'')
    end
  else Ok (O, st).

(** Lines 285-304. *)
Definition finalize (fr : frame) (st : locals) : result pixel_out :=
  let nans := np_repeat PrimFloat.nan (nrow_n fr) in
  let* Tt := read "Tt" (Tt st) in
  let* Tt_n := setitem_idx nans (nan_map fr) Tt in
  let* St := read "St" (St st) in
  let* St_n := setitem_idx nans (nan_map fr) St in
  let* Nt := read "Nt" (Nt st) in
  let* Nt_n := setitem_idx nans (nan_map fr) Nt in
  let* Vt_bp_n := take_idx (nan_map fr) (Vt_bp st) in
  let* Wt_bp_n := take_idx (nan_map fr) (Wt_bp st) in
  let* Vt_bp_arr := setitem_prefix (replicate (nrow_n fr) 0) (length Vt_bp_n) Vt_bp_n in
  let* Wt_bp_arr := setitem_prefix (replicate (nrow_n fr) 0) (length Wt_bp_n) Wt_bp_n in
  Ok {| Tt_n := Tt_n; St_n := St_n; Nt_n := Nt_n;
        Vt_bp_arr := Vt_bp_arr; Wt_bp_arr := Wt_bp_arr;
        n_Vt_bp := length (Vt_bp st); n_Wt_bp := length (Wt_bp st) |}.

Definition loop_fuel (self : BFASTPython) : nat := Z.to_nat (max_iter self - 1).

(** The state in which the loop is left, with the number of iterations. *)
Definition run_loop (self : BFASTPython) (Yt_n ti_n : vec) (smod_n : option ndarray2)
  : result (frame * nat * locals) :=
  let* (fr, st0) := prelude self Yt_n ti_n smod_n in
  let* (n, st) := while_loop self fr (loop_fuel self) st0 in
  Ok (fr, n, st).

Definition fit_single (self : BFASTPython) (Yt_n ti_n : vec) (smod_n : option ndarray2)
  : result pixel_out :=
  let* (fr, _, st) := run_loop self Yt_n ti_n smod_n in
  finalize fr st.

(** ** [fit] *)

(** The image cube [Yt] of shape [(N, W, H)]. *)
Record cube : Type := {
  shape0 : nat;
  shape1 : nat;
  shape2 : nat;
  cell : nat -> nat -> nat -> float
}.

(** [Yt[:, i, j]]. *)
Definition pixel (c : cube) (i j : nat) : vec :=
  map (fun t => cell c t i j) (seq 0 (shape0 c)).

(** The pixels in the order of the two [for] loops. *)
Definition pixel_order (c : cube) : list (nat * nat) :=
  i ← seq 0 (shape1 c); j ← seq 0 (shape2 c); [(i, j)].

(** The pixel loop.  It returns the pixels [fit_single] was called on
    and either the outputs stored for them or the exception that
    ended the run.  (The stores narrow the values to [float32] and
    [int32]; the outputs are kept here as [fit_single] returned them.) *)
Fixpoint fit_pixels (self : BFASTPython) (c : cube) (ti : vec)
    (smod : option ndarray2) (todo : list (nat * nat))
  : list (nat * nat) * result (list (nat * nat * pixel_out)) :=
  match todo with
  | [] => ([], Ok [])
  | (i, j) :: rest =>
      match fit_single self (pixel c i j) ti smod with
      | Raise e => ([(i, j)], Raise e)
      | Ok o =>
          let (seen, r) := fit_pixels self c ti smod rest in
          ((i, j) :: seen, let* os := r in Ok ((i, j, o) :: os))
      end
  end.

Definition fit (self : BFASTPython) (c : cube) (ti : vec)
  : list (nat * nat) * result (list (nat * nat * pixel_out)) :=
  match build_seasonal_model self ti with
  | Raise e => ([], Raise e)
  | Ok smod => fit_pixels self c ti smod (pixel_order c)
  end.

End Model.

(** ** Scripted collaborators

    An [External] instance for running the embedding on concrete inputs.
    The regressors of the trend have at most two columns, those of the
    season more; the scripts are told apart by that.
    - [STL] returns [seed y];
    - the structural-change test returns [pT] for the trend and [pS] for
      the season;
    - the breakpoint search returns [bT y] for the trend and [bS y] for
      the season, with the same labels from [breakfactor];
    - a fit predicts zero on regressors given to [predict], and the
      response itself on its own regressors. *)
Definition scripted (seed : vec -> vec) (pT pS : float) (bT bS : vec -> ivec)
  : External :=
  {| STL_seasonal := fun y _ => seed y;
     EFP_sctest := fun X _ _ => if Nat.leb (ncols X) 2 then pT else pS;
     Breakpoints := fun X y _ _ =>
       let b := if Nat.leb (ncols X) 2 then bT y else bS y in
       {| breakpoints := b; breakfactor := b |};
     omit_nans := fun a b => (a, b);
     partition_matrix := fun _ X => X;
     OLS_results := vec;
     OLS_fit := fun y _ => y;
     predict := fun m exog =>
       match exog with
       | Some X => np_zeros (nrows X)
       | None => m
       end;
     np_cos := fun x => x;
     np_sin := fun x => x |}.

Definition all_zero (y : vec) : bool := forallb (fun a => PrimFloat.eqb a fzero) y.

(** A series of six dates with two gaps, and its dates. *)
Definition gappy_series : vec :=
  [PrimFloat.nan; 1%float; PrimFloat.nan; 2%float; 3%float; 4%float].
Definition six_dates : vec :=
  [1%float; 2%float; 3%float; 4%float; 5%float; 6%float].

(** No trend break, one seasonal break at compacted index 1. *)
Definition season_break_ext : External :=
  scripted (fun y => y) 1%float 0%float (fun _ => []) (fun _ => [1]).

(** No trend break, one seasonal break at compacted index 2, which the
    index map sends to 4. *)
Definition late_season_break_ext : External :=
  scripted (fun y => y) 1%float 0%float (fun _ => []) (fun _ => [2]).

(** One trend break at compacted index 2, no seasonal break; the seed
    of the season is one everywhere. *)
Definition trend_break_ext : External :=
  scripted (fun y => map (fun _ => fone) y) 0%float 1%float (fun _ => [2]) (fun _ => []).

(** Trend breakpoints that never settle: one break when the
    deseasonalized series is zero, none otherwise. *)
Definition restless_ext : External :=
  scripted (fun y => y) 0%float 1%float
           (fun y => if all_zero y then [1] else []) (fun _ => []).

Definition dummy3 : BFASTPython := BFASTPython_init 3.

Definition no_season (k : Z) : BFASTPython :=
  {| frequency := 3; h := h dummy3; season_type := "none"; max_iter := k;
     max_breaks := None; level := level dummy3; verbose := 0 |}.

Definition unknown_season : BFASTPython :=
  {| frequency := 3; h := h dummy3; season_type := "weekly"; max_iter := 10;
     max_breaks := None; level := level dummy3; verbose := 0 |}.

(** The seasonal design of [dummy3] for six dates, as
    [build_seasonal_model] returns it. *)
Definition smod6 : option ndarray2 :=
  match build_seasonal_model (ext := season_break_ext) dummy3 six_dates with
  | Ok m => m
  | Raise _ => None
  end.

(** * Vocabulary of the properties, and the runs they are tried on *)

(** A computation that does not raise the configuration error. *)
Definition benign {A} (r : result A) : Prop := r <> Raise UnknownSeasonalModel.

Definition recognized (s : string) : Prop :=
  s = "dummy"%string \/ s = "harmonic"%string \/ s = "none"%string.

(** A 6 x 1 x 2 cube whose two pixels both hold [gappy_series]. *)
Definition two_pixels : cube :=
  {| shape0 := 6; shape1 := 1; shape2 := 2;
     cell := fun t _ _ => nth t gappy_series PrimFloat.nan |}.

(** Two states of the run with [restless_ext]: after the first pass and
    after the ninth. *)
Definition after_first_pass : locals :=
  {| Vt_bp := [1]; Wt_bp := []; CheckTimeTt := []; CheckTimeSt := [];
     i_iter := 2;
     St := Some (np_zeros 4);
     Tt := Some [1%float; 2%float; 3%float; 4%float];
     Nt := Some (np_zeros 4) |}.

Definition after_ninth_pass : locals :=
  {| Vt_bp := [1]; Wt_bp := []; CheckTimeTt := []; CheckTimeSt := [];
     i_iter := 10;
     St := Some (np_zeros 4);
     Tt := Some [1%float; 2%float; 3%float; 4%float];
     Nt := Some (np_zeros 4) |}.

(** The variables of the run with [season_break_ext] before and after
    its only pass. *)
Definition season_break_start : frame * locals :=
  match prelude (ext := season_break_ext) dummy3 gappy_series six_dates smod6 with
  | Ok p => p
  | Raise _ =>
      ({| nrow_n := 0; nan_map := []; ti := []; Yt := []; smod := None; nrow := 0 |},
       after_first_pass)
  end.

Definition season_break_next : locals :=
  match body (ext := season_break_ext) dummy3
             (fst season_break_start) (snd season_break_start) with
  | Ok st => st
  | Raise _ => after_first_pass
  end.

(** [arr] is the compacted vector [v] put back on the time axis of [y]:
    as long as [y]; the [k]-th value of [v] at the position the index
    map gives for [k]; a value of [v] at every observed position ([v]
    has one value per observation, or a single value that NumPy
    broadcasts); [nan] wherever [y] is missing. *)
Definition remapped (y v arr : vec) : Prop :=
  length arr = length y
  /\ (length v = length (create_nan_map y) \/ length v = 1%nat)
  /\ (forall k i x, create_nan_map y !! k = Some i -> v !! k = Some x ->
                    arr !! Z.to_nat i = Some x)
  /\ (forall j x0, y !! j = Some x0 -> PrimFloat.is_nan x0 = false ->
                   exists x, arr !! j = Some x /\ x ∈ v)
  /\ (forall j x0, y !! j = Some x0 -> PrimFloat.is_nan x0 = true ->
                   arr !! j = Some PrimFloat.nan).

(** [arr] is the breakpoint array of a series of length [N] for the
    breakpoints [bp], with the count [count]. *)
Definition padded (N : nat) (bp : ivec) (count : nat) (arr : ivec) : Prop :=
  length arr = N
  /\ count = length bp
  /\ (count <= N)%nat
  /\ take count arr = map int32 bp
  /\ (forall i, (count <= i < N)%nat -> arr !! i = Some 0)
  /\ (Z.of_nat N <= 2 ^ 31 -> take count arr = bp).

(** The output of the run with [season_break_ext]. *)
Definition season_break_out : pixel_out :=
  match fit_single (ext := season_break_ext) dummy3 gappy_series six_dates smod6 with
  | Ok o => o
  | Raise _ =>
      {| Tt_n := []; St_n := []; Nt_n := []; Vt_bp_arr := []; Wt_bp_arr := [];
         n_Vt_bp := 0; n_Wt_bp := 0 |}
  end.

(** The variables with which the run with [trend_break_ext] starts. *)
Definition trend_break_start : frame * locals :=
  match prelude (ext := trend_break_ext) dummy3 gappy_series six_dates smod6 with
  | Ok p => p
  | Raise _ => season_break_start
  end.

(** Row [r] of the period block the design document describes: the
    identity of size [f - 1] stacked on a row of [-1]. *)
Definition dummy_block_row (f r : nat) : vec :=
  if Nat.eqb r (f - 1) then replicate (f - 1) fminus_one
  else map (fun j => if Nat.eqb r j then fone else fzero) (seq 0 (f - 1)).

(** Row [i] of the design: the intercept, then the block row of the
    position of [i] in its period. *)
Definition dummy_design_row (f i : nat) : vec :=
  fone :: dummy_block_row f (i mod f).

(** A column made of [1] and [-1]. *)
Definition plus_minus_one (a : float) : Prop := a = fone \/ a = fminus_one.

(** The compacted arrays all have one value per observation. *)
Definition frame_sized (fr : frame) : Prop :=
  length (Yt fr) = length (nan_map fr)
  /\ length (ti fr) = length (nan_map fr)
  /\ nrow fr = length (nan_map fr).

Definition sized (fr : frame) (slot : option vec) : Prop :=
  forall v, slot = Some v -> length v = length (nan_map fr).

(** ** Vocabulary of the failure modes *)

(** Every exception [r] may raise satisfies [P]. *)
Definition raises_in {A} (P : exn -> Prop) (r : result A) : Prop :=
  forall e, r = Raise e -> P e.

(** The exceptions of the array operations of [fit_single]. *)
Definition array_error (e : exn) : Prop :=
  e = IndexError \/ e = ShapeMismatch \/ e = ZeroSizeReduction.

(** The exceptions of one pass through the loop body. *)
Definition body_error (self : BFASTPython) (fr : frame) (e : exn) : Prop :=
  array_error e
  \/ (e = UnboundLocalError "smod" /\ smod fr = None
      /\ season_type self <> "none"%string)
  \/ (e = UnboundLocalError "X_sm1" /\ seasonal_requested self = false
      /\ season_type self <> "none"%string).

(** The exceptions of [fit_single] called with the seasonal design [m]. *)
Definition fit_single_error (self : BFASTPython) (m : option ndarray2) (e : exn)
  : Prop :=
  array_error e
  \/ (e = UnboundLocalError "Tt" /\ max_iter self <= 1)
  \/ (e = UnboundLocalError "smod" /\ m = None
      /\ season_type self <> "none"%string)
  \/ (e = UnboundLocalError "X_sm1" /\ seasonal_requested self = false
      /\ season_type self <> "none"%string).

(** The exceptions of [fit]. *)
Definition fit_error (self : BFASTPython) (e : exn) : Prop :=
  (e = UnknownSeasonalModel /\ ~ recognized (season_type self))
  \/ (e = ZeroDivisionError /\ season_type self = "harmonic"%string
      /\ frequency self = 0)
  \/ (e = NegativeDimensions /\ season_type self = "dummy"%string
      /\ frequency self <= 0)
  \/ array_error e
  \/ (e = UnboundLocalError "Tt" /\ max_iter self <= 1).

(** The variables a pass has assigned: [St] always, [Tt] and [Nt]
    together. *)
Definition assigned (st : locals) : Prop :=
  (exists s, St st = Some s)
  /\ ((Tt st = None /\ Nt st = None)
      \/ (exists tt nn, Tt st = Some tt /\ Nt st = Some nn)).


(** [fit_single] returns for the pixel [p]. *)
Definition pixel_ok {ext : External} (self : BFASTPython) (c : cube) (ti : vec)
    (smod : option ndarray2) (p : nat * nat) : Prop :=
  is_ok (fit_single self (pixel c p.1 p.2) ti smod) = true.

(** A 3 x 1 x 2 cube: the pixel (0, 0) is observed at every date, the
    pixel (0, 1) at none. *)
Definition cube_with_hole : cube :=
  {| shape0 := 3; shape1 := 1; shape2 := 2;
     cell := fun t _ j => if Nat.eqb j 0 then Z2f (Z.of_nat (S t)) else PrimFloat.nan |}.


Definition three_dates : vec := [1%float; 2%float; 3%float].

(** The output of the run without seasonal model on [gappy_series]. *)
Definition no_season_out : pixel_out :=
  match fit_single (ext := restless_ext) (no_season 10) gappy_series six_dates None with
  | Ok o => o
  | Raise _ => season_break_out
  end.

(** The observed values of a series, as a mask and as a predicate. *)
Definition observed (x : float) : bool := negb (PrimFloat.is_nan x).

(** Two arrays on the time axis of [y] agree wherever [y] is observed. *)
Definition agree_on_observed {A} (y : vec) (a a' : list A) : Prop :=
  forall j x, y !! j = Some x -> PrimFloat.is_nan x = false -> a !! j = a' !! j.

Definition designs_agree (y : vec) (m m' : option ndarray2) : Prop :=
  match m, m' with
  | Some x, Some x' => ncols x = ncols x' /\ agree_on_observed y (rows x) (rows x')
  | None, None => True
  | _, _ => False
  end.

(** [six_dates] with other dates where [gappy_series] is missing. *)
Definition other_dates : vec :=
  [9%float; 2%float; 7%float; 4%float; 5%float; 6%float].

(** Two trend breaks, at the compacted indices 1 and 3, no seasonal
    break. *)
Definition two_breaks_ext : External :=
  scripted (fun y => y) 0%float 1%float (fun _ => [1; 3]) (fun _ => []).

Definition two_breaks_run : frame * nat * locals :=
  match run_loop (ext := two_breaks_ext) dummy3 gappy_series six_dates smod6 with
  | Ok r => r
  | Raise _ => (fst season_break_start, 0%nat, after_first_pass)
  end.

Definition two_breaks_out : pixel_out :=
  match fit_single (ext := two_breaks_ext) dummy3 gappy_series six_dates smod6 with
  | Ok o => o
  | Raise _ => season_break_out
  end.

(** * Properties *)

(** ** Fallible computations *)

Lemma bind_Ok_inv {A B} (m : result A) (k : A -> result B) (b : B) :
  bind m k = Ok b -> exists a, m = Ok a /\ k a = Ok b.
Proof. destruct m as [a|e]; simpl; [eauto | discriminate]. Qed.

(** Splits a hypothesis [bind m k = Ok b] into its two halves. *)
Ltac bind_inv H :=
  let a := fresh "a" in
  let E := fresh "E" in
  apply bind_Ok_inv in H; destruct H as (a & E & H).

Lemma benign_Ok {A} (a : A) : benign (Ok a).
Proof. discriminate. Qed.

Lemma benign_bind {A B} (m : result A) (k : A -> result B) :
  benign m -> (forall a, benign (k a)) -> benign (bind m k).
Proof.
  intros Hm Hk. destruct m as [a|e]; simpl; [apply Hk|].
  intros [= ->]. now apply Hm.
Qed.

Lemma benign_mapM {A B} (f : A -> result B) (l : list A) :
  (forall a, benign (f a)) -> benign (mapM f l).
Proof.
  intros Hf. induction l as [|a l IH]; simpl; [apply benign_Ok|].
  apply benign_bind; [apply Hf|]. intros b.
  apply benign_bind; [apply IH|]. intros bs. apply benign_Ok.
Qed.

Create HintDb benign.

Ltac benign_step :=
  match goal with
  | |- benign (Ok _) => apply benign_Ok
  | |- benign (Raise _) => discriminate
  | |- benign (bind _ _) => apply benign_bind
  | |- benign (mapM _ _) => apply benign_mapM
  | |- benign (match ?x with _ => _ end) => destruct x
  | |- forall _, _ => intro
  | |- benign _ => solve [auto with benign]
  end.
Ltac benign_tac := repeat benign_step.

Lemma benign_read {A} (name : string) (slot : option A) : benign (read name slot).
Proof. unfold read. benign_tac. Qed.

Lemma benign_norm_index (n : nat) (i : Z) : benign (norm_index n i).
Proof. unfold norm_index. benign_tac. Qed.
#[local] Hint Resolve benign_read benign_norm_index : benign.

Lemma benign_getitem {A} (a : list A) (i : Z) : benign (getitem a i).
Proof. unfold getitem. benign_tac. Qed.
#[local] Hint Resolve benign_getitem : benign.

Lemma benign_take_idx {A} (a : list A) (idx : ivec) : benign (take_idx a idx).
Proof. unfold take_idx. benign_tac. Qed.

Lemma benign_take_mask {A} (a : list A) (mask : list bool) : benign (take_mask a mask).
Proof. unfold take_mask. benign_tac. Qed.

Lemma benign_broadcast_to {A} (n : nat) (v : list A) : benign (broadcast_to n v).
Proof. unfold broadcast_to. benign_tac. Qed.
#[local] Hint Resolve benign_take_idx benign_take_mask benign_broadcast_to : benign.

Lemma benign_setitem_idx {A} (a : list A) (idx : ivec) (v : list A) :
  benign (setitem_idx a idx v).
Proof. unfold setitem_idx. benign_tac. Qed.

Lemma benign_setitem_prefix (a : ivec) (k : nat) (v : ivec) :
  benign (setitem_prefix a k v).
Proof. unfold setitem_prefix. benign_tac. Qed.

Lemma benign_np_sub (a b : vec) : benign (np_sub a b).
Proof. unfold np_sub. benign_tac. Qed.

Lemma benign_is_nonzero_const (c : vec) : benign (is_nonzero_const c).
Proof. unfold is_nonzero_const, np_ptp. benign_tac. Qed.
#[local] Hint Resolve benign_setitem_idx benign_setitem_prefix benign_np_sub
  benign_is_nonzero_const : benign.

Lemma benign_add_constant (x : ndarray2) : benign (add_constant x).
Proof. unfold add_constant. benign_tac. Qed.
#[local] Hint Resolve benign_add_constant : benign.

Section Benign.
Context {ext : External}.

Lemma benign_trend_step self fr s : benign (trend_step self fr s).
Proof. unfold trend_step. benign_tac. Qed.

Lemma benign_season_step self fr t w : benign (season_step self fr t w).
Proof. unfold season_step. benign_tac. Qed.
#[local] Hint Resolve benign_trend_step benign_season_step : benign.

Lemma benign_body self fr st : benign (body self fr st).
Proof. unfold body. benign_tac. Qed.
#[local] Hint Resolve benign_body : benign.

Lemma benign_while_loop self fr fuel st : benign (while_loop self fr fuel st).
Proof.
  revert st. induction fuel as [|fuel IH]; intros st; simpl; benign_tac.
Qed.

Lemma benign_prelude self y t m : benign (prelude self y t m).
Proof. unfold prelude. benign_tac. Qed.

Lemma benign_finalize fr st : benign (finalize fr st).
Proof. unfold finalize. benign_tac. Qed.
#[local] Hint Resolve benign_while_loop benign_prelude benign_finalize : benign.

Lemma benign_fit_single self y t m : benign (fit_single self y t m).
Proof. unfold fit_single, run_loop. benign_tac. Qed.

Lemma benign_fit_pixels self c t m todo : benign (snd (fit_pixels self c t m todo)).
Proof.
  induction todo as [|[i j] todo IH]; simpl; [apply benign_Ok|].
  destruct (fit_single self (pixel c i j) t m) as [o|e] eqn:E.
  - destruct (fit_pixels self c t m todo) as [seen r]. simpl in *.
    benign_tac.
  - simpl. pose proof (benign_fit_single self (pixel c i j) t m) as H.
    rewrite E in H. intros [= ->]. now apply H.
Qed.

End Benign.

(** ** The configuration check of [fit] *)

Section SeasonType.
Context {ext : External}.

Lemma build_seasonal_model_unknown self ti :
  ~ recognized (season_type self) ->
  build_seasonal_model self ti = Raise UnknownSeasonalModel.
Proof.
  unfold recognized, build_seasonal_model. intros H.
  destruct (String.eqb_spec (season_type self) "harmonic"); [tauto|].
  destruct (String.eqb_spec (season_type self) "dummy"); [tauto|].
  destruct (String.eqb_spec (season_type self) "none"); [tauto|].
  reflexivity.
Qed.

Lemma build_seasonal_model_known self ti :
  recognized (season_type self) -> benign (build_seasonal_model self ti).
Proof.
  unfold recognized, build_seasonal_model. intros H.
  destruct (String.eqb_spec (season_type self) "harmonic"); [benign_tac|].
  destruct (String.eqb_spec (season_type self) "dummy"); [benign_tac|].
  destruct (String.eqb_spec (season_type self) "none"); [benign_tac|].
  tauto.
Qed.

(** C9.  [fit] ends in the configuration error exactly when
    [season_type] is none of "dummy", "harmonic", "none"; the error is
    then raised by [build_seasonal_model], before [fit_single] has been
    called on any pixel, so that nothing has been stored.  For the
    three recognized strings no run of [fit] ends in that error. *)
Theorem fit_checks_season_type self c ti :
  (snd (fit self c ti) = Raise UnknownSeasonalModel
     <-> ~ recognized (season_type self))
  /\ (~ recognized (season_type self) ->
      fit self c ti = ([], Raise UnknownSeasonalModel)).
Proof.
  assert (Hbad : ~ recognized (season_type self) ->
                 fit self c ti = ([], Raise UnknownSeasonalModel)).
  { intros H. unfold fit. now rewrite build_seasonal_model_unknown. }
  split; [|exact Hbad]. split.
  - intros Hraise Hrec. revert Hraise. unfold fit.
    pose proof (build_seasonal_model_known self ti Hrec) as Hb.
    destruct (build_seasonal_model self ti) as [m|e]; simpl.
    + apply benign_fit_pixels.
    + intros [= ->]. now apply Hb.
  - intros H. now rewrite Hbad.
Qed.

End SeasonType.

Lemma fit_checks_season_type_witness :
  fit (ext := season_break_ext) unknown_season two_pixels six_dates
  = ([], Raise UnknownSeasonalModel).
Proof.
  apply (proj2 (fit_checks_season_type (ext := season_break_ext)
                  unknown_season two_pixels six_dates)).
  unfold recognized. simpl. intros [H|[H|H]]; discriminate H.
Defined.

(** ** The loop *)

Lemma same_values_eq (a b : ivec) : same_values a b = true <-> a = b.
Proof.
  revert b. induction a as [|x a IH]; intros [|y b]; simpl; try easy.
  rewrite andb_true_iff, Z.eqb_eq, IH. split.
  - intros [-> ->]. reflexivity.
  - intros [= -> ->]. auto.
Qed.

Lemma different_true (a b : ivec) : different a b = true <-> a <> b.
Proof.
  unfold different. rewrite negb_true_iff, andb_false_iff. split.
  - intros [H|H] ->.
    + now rewrite Nat.eqb_refl in H.
    + assert (same_values b b = true) by now apply same_values_eq.
      congruence.
  - intros H. right. destruct (same_values a b) eqn:E; [|reflexivity].
    apply same_values_eq in E. contradiction.
Qed.

Lemma different_false (a b : ivec) : different a b = false <-> a = b.
Proof.
  destruct (different a b) eqn:E.
  - apply different_true in E. split; [discriminate | contradiction].
  - split; [|reflexivity]. intros _.
    destruct (list_eq_dec a b) as [H|H]; [exact H|].
    apply different_true in H. congruence.
Qed.

Lemma loop_cond_true self st :
  loop_cond self st = true <->
  Vt_bp st <> CheckTimeTt st /\ i_iter st < max_iter self.
Proof.
  unfold loop_cond. rewrite andb_true_iff, orb_diag, different_true, Z.ltb_lt.
  reflexivity.
Qed.

Section Loop.
Context {ext : External}.

Lemma body_bookkeeping self fr st st' :
  body self fr st = Ok st' ->
  i_iter st' = i_iter st + 1
  /\ CheckTimeTt st' = Vt_bp st
  /\ CheckTimeSt st' = Wt_bp st.
Proof.
  unfold body. intros H.
  bind_inv H. bind_inv H. destruct a0 as [t vb].
  bind_inv H. destruct a0 as [s wb].
  bind_inv H. bind_inv H.
  injection H as <-. simpl. auto.
Qed.

Lemma while_loop_steps self fr fuel st n st' :
  while_loop self fr fuel st = Ok (n, st') ->
  i_iter st' = i_iter st + Z.of_nat n /\ (n <= fuel)%nat.
Proof.
  revert st n. induction fuel as [|fuel IH]; intros st n; simpl.
  - destruct (loop_cond self st); intros [= <- <-]; lia.
  - destruct (loop_cond self st); [|intros [= <- <-]; lia].
    intros H. bind_inv H. bind_inv H. destruct a0 as [k s].
    injection H as <- <-.
    apply body_bookkeeping in E as (Hi & _).
    apply IH in E0 as (Hs & Hk). lia.
Qed.

(** The unrollings [fit_single] grants are never used up: the loop is
    left with its condition false. *)
Lemma while_loop_exit self fr fuel st n st' :
  max_iter self - i_iter st <= Z.of_nat fuel ->
  while_loop self fr fuel st = Ok (n, st') ->
  loop_cond self st' = false.
Proof.
  revert st n. induction fuel as [|fuel IH]; intros st n Hfuel; simpl.
  - destruct (loop_cond self st) eqn:C; intros [= <- <-]; [|exact C].
    apply loop_cond_true in C. lia.
  - destruct (loop_cond self st) eqn:C; [|intros [= <- <-]; exact C].
    intros H. bind_inv H. bind_inv H. destruct a0 as [k s].
    injection H as <- <-.
    apply body_bookkeeping in E as (Hi & _).
    eapply IH; [|exact E0]. lia.
Qed.

Lemma prelude_locals self y t m fr st0 :
  prelude self y t m = Ok (fr, st0) ->
  Vt_bp st0 = [] /\ Wt_bp st0 = [] /\ CheckTimeTt st0 = [0] /\ i_iter st0 = 1
  /\ Tt st0 = None /\ Nt st0 = None /\ (exists s, St st0 = Some s)
  /\ nrow_n fr = length y /\ nan_map fr = create_nan_map y.
Proof.
  unfold prelude. intros H.
  bind_inv H. bind_inv H. bind_inv H. bind_inv H.
  injection H as <- <-. simpl. eauto 10.
Qed.

Lemma run_loop_inv self y t m fr n st :
  run_loop self y t m = Ok (fr, n, st) ->
  exists st0, prelude self y t m = Ok (fr, st0)
              /\ while_loop self fr (loop_fuel self) st0 = Ok (n, st).
Proof.
  unfold run_loop. intros H.
  bind_inv H. destruct a as [fr0 st0].
  bind_inv H. destruct a as [k s].
  injection H as <- <- <-. eauto.
Qed.

Lemma fit_single_inv self y t m out :
  fit_single self y t m = Ok out ->
  exists fr n st, run_loop self y t m = Ok (fr, n, st) /\ finalize fr st = Ok out.
Proof.
  unfold fit_single. intros H.
  bind_inv H. destruct a as [[fr n] st]. eauto.
Qed.

(** The loop makes at most [max_iter - 1] passes, and is left either
    with the trend breakpoints unchanged by the last pass or with the
    counter at [max_iter]. *)
Lemma run_loop_count self y t m fr n st :
  run_loop self y t m = Ok (fr, n, st) ->
  i_iter st = 1 + Z.of_nat n
  /\ Z.of_nat n <= Z.max 0 (max_iter self - 1)
  /\ loop_cond self st = false.
Proof.
  intros H. apply run_loop_inv in H as (st0 & Hp & Hw).
  apply prelude_locals in Hp as (_ & _ & _ & Hi & _).
  pose proof (while_loop_steps _ _ _ _ _ _ Hw) as (Hs & Hn).
  split; [lia|]. split.
  - unfold loop_fuel in Hn. lia.
  - eapply while_loop_exit; [|exact Hw]. unfold loop_fuel. lia.
Qed.

(** A run whose trend breakpoints have not settled when the loop is
    left has made [max_iter - 1] passes. *)
Lemma unsettled_run_length self y t m fr n st :
  run_loop self y t m = Ok (fr, n, st) ->
  Vt_bp st <> CheckTimeTt st ->
  1 <= max_iter self ->
  Z.of_nat n = max_iter self - 1.
Proof.
  intros H Hne Hmax.
  apply run_loop_count in H as (Hi & Hn & Hc).
  destruct (Z.lt_ge_cases (i_iter st) (max_iter self)) as [Hlt|Hge].
  - assert (loop_cond self st = true) by (apply loop_cond_true; auto).
    congruence.
  - lia.
Qed.

End Loop.

(** ** What the loop condition looks at *)

(** C2, as stated, fails: whether the loop goes on is not a function of
    the comparison of the trend breakpoints alone.  With [max_iter = 10]
    the trend breakpoints differ from their previous value both after
    the first and after the ninth pass; the loop goes on after the
    first and stops after the ninth. *)
Lemma loop_cond_not_trend_only :
  ~ exists f : bool -> bool,
      forall st : locals,
        loop_cond dummy3 st = f (different (Vt_bp st) (CheckTimeTt st)).
Proof.
  intros [f Hf].
  pose proof (Hf after_first_pass) as H1.
  pose proof (Hf after_ninth_pass) as H9.
  vm_compute in H1, H9. congruence.
Qed.

Section LoopDecision.
Context {ext : External}.

(** C2, amended.  After every pass through the body, [CheckTimeTt] holds
    the trend breakpoints the pass started with, and the loop goes on
    exactly when the new trend breakpoints differ from them (as
    sequences: other length or other values) and the counter is still
    below [max_iter]; the comparison is written twice.  Nothing else is
    looked at: if the trend breakpoints are unchanged the loop stops,
    whatever happened to the seasonal breakpoints. *)
Theorem loop_decision self fr st st' (Hbody : body self fr st = Ok st') :
  CheckTimeTt st' = Vt_bp st
  /\ loop_cond self st'
     = (different (Vt_bp st') (Vt_bp st) || different (Vt_bp st') (Vt_bp st))
       && (i_iter st' <? max_iter self)
  /\ (loop_cond self st' = true
      <-> Vt_bp st' <> Vt_bp st /\ i_iter st' < max_iter self)
  /\ (Vt_bp st' = Vt_bp st -> loop_cond self st' = false)
  /\ (forall st2, Vt_bp st2 = Vt_bp st' -> CheckTimeTt st2 = CheckTimeTt st' ->
                  i_iter st2 = i_iter st' ->
                  loop_cond self st2 = loop_cond self st').
Proof.
  apply body_bookkeeping in Hbody as (_ & Hc & _).
  split; [exact Hc|]. split; [unfold loop_cond; now rewrite Hc|].
  split; [rewrite loop_cond_true, Hc; reflexivity|]. split.
  - intros Heq. destruct (loop_cond self st') eqn:C; [|reflexivity].
    apply loop_cond_true in C as [C _]. congruence.
  - intros st2 H1 H2 H3. unfold loop_cond. now rewrite H1, H2, H3.
Qed.

End LoopDecision.

Lemma loop_decision_witness :
  Wt_bp season_break_next <> Wt_bp (snd season_break_start)
  /\ loop_cond dummy3 season_break_next = false.
Proof.
  split; [vm_compute; discriminate|].
  assert (Hbody : body (ext := season_break_ext) dummy3 (fst season_break_start)
                    (snd season_break_start) = Ok season_break_next)
    by (vm_compute; reflexivity).
  destruct (loop_decision (ext := season_break_ext) _ _ _ _ Hbody)
    as (_ & _ & _ & Hstop & _).
  apply Hstop. vm_compute. reflexivity.
Defined.

(** ** The number of passes *)

(** C3 at a failing input: with the default [max_iter = 10] and trend
    breakpoints that change in every pass, the loop makes nine passes,
    not ten, and is left with the breakpoints still unsettled. *)
Theorem default_run_makes_nine_passes :
  max_iter dummy3 = 10
  /\ exists fr st,
      run_loop (ext := restless_ext) dummy3 gappy_series six_dates smod6
      = Ok (fr, 9%nat, st)
      /\ Vt_bp st <> CheckTimeTt st
      /\ is_ok (fit_single (ext := restless_ext) dummy3 gappy_series six_dates smod6)
         = true.
Proof.
  split; [reflexivity|]. eexists. eexists.
  split; [vm_compute; reflexivity|].
  split; [vm_compute; discriminate | vm_compute; reflexivity].
Qed.

Lemma restless_states_reached :
  exists fr st0,
    prelude (ext := restless_ext) dummy3 gappy_series six_dates smod6 = Ok (fr, st0)
    /\ body (ext := restless_ext) dummy3 fr st0 = Ok after_first_pass
    /\ run_loop (ext := restless_ext) dummy3 gappy_series six_dates smod6
       = Ok (fr, 9%nat, after_ninth_pass).
Proof.
  eexists. eexists. split; [vm_compute; reflexivity|].
  split; vm_compute; reflexivity.
Qed.

(** ** [max_iter] below two *)

(** C10, as stated, fails in one detail: [St] is assigned before the
    loop (line 185) on every path.  Without a seasonal model and with
    [max_iter = 1] the loop is left with [Tt] and [Nt] unassigned but
    with [St] bound to the zeros of line 180. *)
Lemma St_is_assigned_before_the_loop :
  ~ (forall fr n st,
       run_loop (ext := restless_ext) (no_season 1) gappy_series six_dates None
       = Ok (fr, n, st) ->
       Tt st = None /\ St st = None /\ Nt st = None).
Proof.
  intros H.
  edestruct H as (_ & HSt & _); [vm_compute; reflexivity|].
  discriminate HSt.
Qed.

Section MaxIter.
Context {ext : External}.

Lemma skipped_loop self y t m fr st0 :
  max_iter self <= 1 ->
  prelude self y t m = Ok (fr, st0) ->
  run_loop self y t m = Ok (fr, 0%nat, st0).
Proof.
  intros Hmax Hp. unfold run_loop. rewrite Hp. simpl.
  assert (loop_cond self st0 = false) as Hc.
  { destruct (loop_cond self st0) eqn:C; [|reflexivity].
    apply loop_cond_true in C as [_ C].
    apply prelude_locals in Hp as (_ & _ & _ & Hi & _). lia. }
  destruct (loop_fuel self); simpl; now rewrite Hc.
Qed.

Lemma skipped_loop_raises self y t m fr st0 :
  max_iter self <= 1 ->
  prelude self y t m = Ok (fr, st0) ->
  fit_single self y t m = Raise (UnboundLocalError "Tt").
Proof.
  intros Hmax Hp. unfold fit_single.
  rewrite (skipped_loop _ _ _ _ _ _ Hmax Hp). simpl.
  apply prelude_locals in Hp as (_ & _ & _ & _ & HT & _).
  unfold finalize. now rewrite HT.
Qed.

(** C10, amended.  If [max_iter <= 1] the body is never entered:
    whenever the lines before the loop succeed, the loop returns their
    variables after zero passes, with [Tt] and [Nt] unassigned ([St] is
    assigned), and [fit_single] raises [UnboundLocalError] at its first
    read of [Tt].  In no case does [fit_single] return an output, so a
    returned output requires [max_iter >= 2]. *)
Theorem max_iter_at_most_one self y t m (Hmax : max_iter self <= 1) :
  is_ok (fit_single self y t m) = false
  /\ forall fr st0,
      prelude self y t m = Ok (fr, st0) ->
      run_loop self y t m = Ok (fr, 0%nat, st0)
      /\ Tt st0 = None /\ Nt st0 = None /\ (exists s, St st0 = Some s)
      /\ fit_single self y t m = Raise (UnboundLocalError "Tt").
Proof.
  split.
  - destruct (prelude self y t m) as [[fr st0]|e] eqn:Hp.
    + now rewrite (skipped_loop_raises _ _ _ _ _ _ Hmax Hp).
    + unfold fit_single, run_loop. now rewrite Hp.
  - intros fr st0 Hp.
    pose proof (prelude_locals _ _ _ _ _ _ Hp) as (_ & _ & _ & _ & HT & HN & HS & _).
    split; [exact (skipped_loop _ _ _ _ _ _ Hmax Hp)|].
    repeat split; try assumption.
    exact (skipped_loop_raises _ _ _ _ _ _ Hmax Hp).
Qed.

End MaxIter.

Lemma max_iter_at_most_one_witness :
  fit_single (ext := restless_ext) (no_season 1) gappy_series six_dates None
  = Raise (UnboundLocalError "Tt").
Proof.
  assert (Hm : max_iter (no_season 1) <= 1) by (simpl; lia).
  destruct (max_iter_at_most_one (ext := restless_ext) (no_season 1)
              gappy_series six_dates None Hm) as [_ H].
  edestruct H as (_ & _ & _ & _ & Hr); [vm_compute; reflexivity|].
  exact Hr.
Defined.

(** ** The index map *)

Lemma nan_map_from_lookup i y k z :
  nan_map_from i y !! k = Some z ->
  exists j x, y !! j = Some x /\ PrimFloat.is_nan x = false
              /\ z = i + Z.of_nat j /\ (k <= j)%nat.
Proof.
  revert i k. induction y as [|a y IH]; intros i k; simpl; [easy|].
  destruct (PrimFloat.is_nan a) eqn:Ea.
  - intros H. apply IH in H as (j & x & Hj & Hx & -> & Hk).
    exists (S j), x. repeat split; auto; lia.
  - destruct k as [|k]; simpl.
    + intros [= <-]. exists 0%nat, a. repeat split; auto; lia.
    + intros H. apply IH in H as (j & x & Hj & Hx & -> & Hk).
      exists (S j), x. repeat split; auto; lia.
Qed.

Lemma nan_map_from_mem i y j x :
  y !! j = Some x -> PrimFloat.is_nan x = false ->
  exists k, nan_map_from i y !! k = Some (i + Z.of_nat j).
Proof.
  revert i j. induction y as [|a y IH]; intros i j; simpl; [easy|].
  destruct j as [|j]; simpl.
  - intros [= ->] ->. exists 0%nat. simpl. f_equal. lia.
  - intros Hj Hx. destruct (IH (i + 1) j Hj Hx) as [k Hk].
    replace (i + 1 + Z.of_nat j) with (i + Z.of_nat (S j)) in Hk by lia.
    destruct (PrimFloat.is_nan a); [exists k | exists (S k)]; exact Hk.
Qed.

Lemma nan_map_from_increasing i y k1 k2 z1 z2 :
  (k1 < k2)%nat ->
  nan_map_from i y !! k1 = Some z1 -> nan_map_from i y !! k2 = Some z2 ->
  z1 < z2.
Proof.
  revert i k1 k2. induction y as [|a y IH]; intros i k1 k2 Hk; simpl; [easy|].
  destruct (PrimFloat.is_nan a); [now apply IH|].
  destruct k2 as [|k2]; [lia|]. destruct k1 as [|k1]; simpl.
  - intros [= <-] H2. apply nan_map_from_lookup in H2 as (j & x & _ & _ & -> & _).
    lia.
  - apply IH. lia.
Qed.

Lemma nan_map_from_length i y : (length (nan_map_from i y) <= length y)%nat.
Proof.
  revert i. induction y as [|a y IH]; intros i; simpl; [lia|].
  destruct (PrimFloat.is_nan a); simpl; specialize (IH (i + 1)); lia.
Qed.

Lemma nan_map_from_all_missing i y :
  Forall (fun x => PrimFloat.is_nan x = true) y -> nan_map_from i y = [].
Proof.
  intros H. revert i. induction H as [|a y Ha _ IH]; intros i; simpl; [reflexivity|].
  rewrite Ha. apply IH.
Qed.

(** The index map lists, in increasing order, exactly the positions of
    the observations that are not missing. *)
Lemma create_nan_map_range y k z :
  create_nan_map y !! k = Some z -> 0 <= z < Z.of_nat (length y).
Proof.
  intros H. apply nan_map_from_lookup in H as (j & x & Hj & _ & -> & _).
  apply lookup_lt_Some in Hj. lia.
Qed.

Lemma create_nan_map_observed y k z :
  create_nan_map y !! k = Some z ->
  exists x, y !! Z.to_nat z = Some x /\ PrimFloat.is_nan x = false.
Proof.
  intros H. apply nan_map_from_lookup in H as (j & x & Hj & Hx & -> & _).
  exists x. split; [|exact Hx]. now replace (Z.to_nat (0 + Z.of_nat j)) with j by lia.
Qed.

Lemma create_nan_map_complete y j x :
  y !! j = Some x -> PrimFloat.is_nan x = false ->
  exists k, create_nan_map y !! k = Some (Z.of_nat j).
Proof. intros Hj Hx. exact (nan_map_from_mem 0 y j x Hj Hx). Qed.

Lemma create_nan_map_injective y k1 k2 z :
  create_nan_map y !! k1 = Some z -> create_nan_map y !! k2 = Some z -> k1 = k2.
Proof.
  intros H1 H2. destruct (Nat.lt_trichotomy k1 k2) as [H|[H|H]]; [|exact H|].
  - pose proof (nan_map_from_increasing _ _ _ _ _ _ H H1 H2). lia.
  - pose proof (nan_map_from_increasing _ _ _ _ _ _ H H2 H1). lia.
Qed.

(** ** Reading and writing through an index array *)

Lemma mapM_length {A B} (f : A -> result B) l r :
  mapM f l = Ok r -> length r = length l.
Proof.
  revert r. induction l as [|a l IH]; simpl; intros r H.
  - now injection H as <-.
  - bind_inv H. bind_inv H. injection H as <-. simpl. f_equal. auto.
Qed.

Lemma mapM_lookup {A B} (f : A -> result B) l r k a :
  mapM f l = Ok r -> l !! k = Some a -> exists b, r !! k = Some b /\ f a = Ok b.
Proof.
  revert r k. induction l as [|a0 l IH]; simpl; intros r k H; [easy|].
  bind_inv H. bind_inv H. injection H as <-.
  destruct k as [|k]; simpl.
  - intros [= <-]. eauto.
  - intros Hk. eapply IH; eauto.
Qed.

Lemma norm_index_in_range n z :
  0 <= z < Z.of_nat n -> norm_index n z = Ok (Z.to_nat z).
Proof.
  intros H. unfold norm_index.
  destruct (Z.leb_spec 0 z); [|lia]. destruct (Z.ltb_spec z (Z.of_nat n)); [|lia].
  reflexivity.
Qed.

Lemma getitem_elem {A} (a : list A) z x : getitem a z = Ok x -> x ∈ a.
Proof.
  unfold getitem. intros H. bind_inv H.
  destruct (a !! a0) eqn:El; [|discriminate]. injection H as <-.
  eapply list_elem_of_lookup_2; eauto.
Qed.

Lemma take_idx_length {A} (a : list A) idx r :
  take_idx a idx = Ok r -> length r = length idx.
Proof. apply mapM_length. Qed.

Lemma take_idx_elems {A} (a : list A) idx r x :
  take_idx a idx = Ok r -> x ∈ r -> x ∈ a.
Proof.
  unfold take_idx. revert r. induction idx as [|i idx IH]; simpl; intros r H.
  - injection H as <-. intros Hx. inversion Hx.
  - bind_inv H. bind_inv H. injection H as <-.
    intros Hx. apply elem_of_cons in Hx as [->|Hx].
    + eapply getitem_elem; eauto.
    + eapply IH; eauto.
Qed.

Lemma scatter_length {A} (a : list A) ks v : length (scatter a ks v) = length a.
Proof.
  unfold scatter. revert a v. induction ks as [|k ks IH]; intros a [|x v]; simpl; auto.
  rewrite IH. apply length_insert.
Qed.

Lemma scatter_untouched {A} (a : list A) ks v i :
  (forall k, ks !! k <> Some i) -> scatter a ks v !! i = a !! i.
Proof.
  unfold scatter. revert a v. induction ks as [|k0 ks IH]; intros a [|x v] H; simpl; auto.
  rewrite IH.
  - apply list_lookup_insert_ne. intros ->. now apply (H 0%nat).
  - intros k. apply (H (S k)).
Qed.

Lemma scatter_written {A} (a : list A) ks v k i x :
  ks !! k = Some i -> v !! k = Some x -> (i < length a)%nat ->
  (forall k', (k < k')%nat -> ks !! k' <> Some i) ->
  scatter a ks v !! i = Some x.
Proof.
  revert a v k. induction ks as [|k0 ks IH]; intros a v k; [easy|].
  destruct v as [|x0 v]; [easy|].
  destruct k as [|k]; simpl.
  - intros [= ->] [= ->] Hi Hlater.
    change (scatter (<[i:=x]> a) ks v !! i = Some x).
    rewrite scatter_untouched.
    + now apply list_lookup_insert_eq.
    + intros k'. apply (Hlater (S k')). lia.
  - intros Hk Hv Hi Hlater.
    change (scatter (<[k0:=x0]> a) ks v !! i = Some x).
    eapply IH; eauto.
    + now rewrite length_insert.
    + intros k' Hk'. apply (Hlater (S k')). lia.
Qed.

Lemma broadcast_to_inv {A} n (v vb : list A) :
  broadcast_to n v = Ok vb ->
  length vb = n
  /\ ((v = vb) \/ (exists x, v = [x] /\ vb = replicate n x)).
Proof.
  unfold broadcast_to. destruct (Nat.eqb_spec (length v) n).
  - intros [= <-]. auto.
  - destruct v as [|x [|? ?]]; try discriminate. intros [= <-].
    split; [apply length_replicate | eauto].
Qed.

Lemma mapM_ok {A B} (f : A -> result B) (l : list A) :
  (forall a, a ∈ l -> is_ok (f a) = true) -> is_ok (mapM f l) = true.
Proof.
  induction l as [|a l IH]; intros H; simpl; [reflexivity|].
  pose proof (H a (list_elem_of_here _ _)) as Ha.
  destruct (f a) as [b|]; [simpl | discriminate].
  assert (Hl : is_ok (mapM f l) = true).
  { apply IH. intros a' Ha'. apply H. now apply list_elem_of_further. }
  destruct (mapM f l); [reflexivity | discriminate].
Qed.

(** Reading an array as long as the series through the index map of the
    series never fails. *)
Lemma take_idx_nan_map {A} (a : list A) (y : vec) :
  length a = length y -> exists r, take_idx a (create_nan_map y) = Ok r.
Proof.
  intros Hlen.
  assert (H : is_ok (take_idx a (create_nan_map y)) = true).
  { apply mapM_ok. intros z Hz.
    apply list_elem_of_lookup_1 in Hz as [k Hk].
    apply create_nan_map_range in Hk.
    unfold getitem. rewrite norm_index_in_range by lia. simpl.
    destruct (a !! Z.to_nat z) eqn:E; [reflexivity|].
    apply lookup_ge_None in E. lia. }
  destruct (take_idx a (create_nan_map y)); [eauto | discriminate].
Qed.

Section Prelude.
Context {ext : External}.

(** The lines before the loop succeed on every well-formed input: dates
    and seasonal design as long as the series, and an STL seed as long
    as the series. *)
Lemma prelude_succeeds self y t m :
  length t = length y ->
  length (STL_seasonal y (frequency self)) = length y ->
  (forall x, m = Some x -> nrows x = length y) ->
  exists fr st0, prelude self y t m = Ok (fr, st0).
Proof.
  intros Ht Hseed Hm. unfold prelude.
  destruct (take_idx_nan_map t y Ht) as [r1 ->]. simpl.
  assert (Hs : length (if seasonal_requested self
                       then STL_seasonal y (frequency self)
                       else np_zeros (length y)) = length y).
  { destruct (seasonal_requested self); [exact Hseed|].
    apply length_replicate. }
  destruct (take_idx_nan_map _ y Hs) as [r2 ->]. simpl.
  destruct (take_idx_nan_map y y eq_refl) as [r3 ->]. simpl.
  destruct m as [x|]; simpl; [|eauto].
  destruct (take_idx_nan_map (rows x) y (Hm x eq_refl)) as [r4 ->]. simpl. eauto.
Qed.

(** So on every well-formed input a [max_iter] below two ends in the
    unassigned [Tt]. *)
Lemma skipped_loop_well_formed self y t m :
  max_iter self <= 1 ->
  length t = length y ->
  length (STL_seasonal y (frequency self)) = length y ->
  (forall x, m = Some x -> nrows x = length y) ->
  fit_single self y t m = Raise (UnboundLocalError "Tt").
Proof.
  intros Hmax Ht Hseed Hm.
  destruct (prelude_succeeds self y t m Ht Hseed Hm) as (fr & st0 & Hp).
  eapply skipped_loop_raises; eauto.
Qed.

End Prelude.

(** ** The output arrays *)

Lemma int32_small z : - 2 ^ 31 <= z < 2 ^ 31 -> int32 z = z.
Proof. intros H. unfold int32. rewrite Z.mod_small; lia. Qed.

Lemma nan_map_indices y ks :
  mapM (norm_index (length y)) (create_nan_map y) = Ok ks ->
  forall k, ks !! k = Z.to_nat <$> (create_nan_map y !! k).
Proof.
  intros H k. destruct (create_nan_map y !! k) as [z|] eqn:E; simpl.
  - destruct (mapM_lookup _ _ _ _ _ H E) as (b & Hb & Hn).
    rewrite norm_index_in_range in Hn by (eapply create_nan_map_range; eauto).
    congruence.
  - apply lookup_ge_None. apply lookup_ge_None in E.
    apply mapM_length in H. lia.
Qed.

Lemma setitem_nan_map y v arr :
  setitem_idx (np_repeat PrimFloat.nan (length y)) (create_nan_map y) v = Ok arr ->
  remapped y v arr.
Proof.
  unfold setitem_idx, np_repeat. intros H. bind_inv H. bind_inv H.
  rename a into vb, a0 into ks. injection H as <-.
  rewrite length_replicate in E0.
  pose proof (nan_map_indices _ _ E0) as Hks.
  apply broadcast_to_inv in E as (Hlen & Hvb).
  assert (Hin : forall k i, create_nan_map y !! k = Some i ->
            forall x, vb !! k = Some x -> scatter (replicate (length y) PrimFloat.nan) ks vb
                                 !! Z.to_nat i = Some x).
  { intros k i Hk x Hx. eapply scatter_written; eauto.
    - now rewrite Hks, Hk.
    - rewrite length_replicate. apply create_nan_map_range in Hk. lia.
    - intros k' Hlt Hk'. rewrite Hks in Hk'.
      destruct (create_nan_map y !! k') as [z'|] eqn:E'; [|discriminate].
      injection Hk' as Hz.
      pose proof (create_nan_map_range _ _ _ Hk).
      pose proof (create_nan_map_range _ _ _ E').
      assert (z' = i) as -> by lia.
      pose proof (create_nan_map_injective _ _ _ _ Hk E'). lia. }
  repeat split.
  - now rewrite scatter_length, length_replicate.
  - destruct Hvb as [->|(x & -> & _)]; auto.
  - intros k i x Hk Hx. apply (Hin k i Hk).
    destruct Hvb as [->|(x0 & -> & ->)]; [exact Hx|].
    destruct k as [|k]; [|discriminate]. injection Hx as ->.
    apply lookup_replicate. split; [reflexivity|].
    apply lookup_lt_Some in Hk. lia.
  - intros j x0 Hj Hx0.
    destruct (create_nan_map_complete _ _ _ Hj Hx0) as [k Hk].
    destruct (vb !! k) as [x|] eqn:Ex.
    + exists x. split.
      * rewrite <- (Nat2Z.id j). now apply (Hin k).
      * destruct Hvb as [->|(x1 & -> & ->)].
        -- eapply list_elem_of_lookup_2; eauto.
        -- apply lookup_replicate in Ex as [-> _]. apply list_elem_of_here.
    + apply lookup_ge_None in Ex. apply lookup_lt_Some in Hk. lia.
  - intros j x0 Hj Hx0. rewrite scatter_untouched.
    + apply lookup_replicate. split; [reflexivity|]. now apply lookup_lt_Some in Hj.
    + intros k Hk. rewrite Hks in Hk.
      destruct (create_nan_map y !! k) as [z|] eqn:E'; [|discriminate].
      injection Hk as <-.
      apply create_nan_map_observed in E' as (x & Hx & Hnan). congruence.
Qed.

Lemma take_nan_map_range y idx bp :
  take_idx (create_nan_map y) idx = Ok bp ->
  Forall (fun z => 0 <= z < Z.of_nat (length y)) bp.
Proof.
  intros H. apply Forall_forall. intros z Hz.
  apply (take_idx_elems _ _ _ _ H) in Hz.
  apply list_elem_of_lookup_1 in Hz as [k Hk].
  eapply create_nan_map_range; eauto.
Qed.

Lemma breakpoint_array_padded y idx bp arr :
  take_idx (create_nan_map y) idx = Ok bp ->
  setitem_prefix (replicate (length y) 0) (length bp) bp = Ok arr ->
  padded (length y) bp (length idx) arr.
Proof.
  intros Htake H. pose proof (take_nan_map_range _ _ _ Htake) as Hrange.
  pose proof (take_idx_length _ _ _ Htake) as Hlen.
  unfold setitem_prefix in H. rewrite length_replicate in H.
  bind_inv H. injection H as <-.
  apply broadcast_to_inv in E as (Hm & Hvb).
  assert ((length bp <= length y)%nat /\ a = bp) as [Hle ->].
  { destruct Hvb as [->|(x & -> & ->)]; [split; [lia | reflexivity] | ].
    inversion Hrange as [|? ? Hx _]; subst.
    change (length [x]) with 1%nat in *.
    replace (1 `min` length y)%nat with 1%nat by lia.
    split; [lia | reflexivity]. }
  replace (length bp `min` length y)%nat with (length bp) by lia.
  assert (Htk : take (length idx) (map int32 bp ++ drop (length bp) (replicate (length y) 0))
                = map int32 bp).
  { rewrite <- Hlen. rewrite take_app_length'; [reflexivity | now rewrite length_map]. }
  unfold padded. repeat split.
  - rewrite length_app, length_map, length_drop, length_replicate. lia.
  - now rewrite Hlen.
  - lia.
  - exact Htk.
  - intros i Hi. rewrite lookup_app_r by (rewrite length_map; lia).
    rewrite length_map, lookup_drop. apply lookup_replicate. split; [reflexivity|lia].
  - intros HN. rewrite Htk. clear -Hrange HN.
    induction Hrange as [|z l Hz _ IH]; simpl; [reflexivity|].
    rewrite IH, int32_small; [reflexivity | lia].
Qed.

Lemma read_inv {A} name (slot : option A) a : read name slot = Ok a -> slot = Some a.
Proof. destruct slot; simpl; congruence. Qed.

Lemma finalize_inv fr st out :
  finalize fr st = Ok out ->
  exists tt ss nn vb wb,
    Tt st = Some tt /\ St st = Some ss /\ Nt st = Some nn
    /\ setitem_idx (np_repeat PrimFloat.nan (nrow_n fr)) (nan_map fr) tt = Ok (Tt_n out)
    /\ setitem_idx (np_repeat PrimFloat.nan (nrow_n fr)) (nan_map fr) ss = Ok (St_n out)
    /\ setitem_idx (np_repeat PrimFloat.nan (nrow_n fr)) (nan_map fr) nn = Ok (Nt_n out)
    /\ take_idx (nan_map fr) (Vt_bp st) = Ok vb
    /\ take_idx (nan_map fr) (Wt_bp st) = Ok wb
    /\ setitem_prefix (replicate (nrow_n fr) 0) (length vb) vb = Ok (Vt_bp_arr out)
    /\ setitem_prefix (replicate (nrow_n fr) 0) (length wb) wb = Ok (Wt_bp_arr out)
    /\ n_Vt_bp out = length (Vt_bp st)
    /\ n_Wt_bp out = length (Wt_bp st).
Proof.
  unfold finalize. intros H.
  bind_inv H. apply read_inv in E. bind_inv H.
  bind_inv H. apply read_inv in E1. bind_inv H.
  bind_inv H. apply read_inv in E3. bind_inv H.
  bind_inv H. bind_inv H. bind_inv H. bind_inv H.
  injection H as <-. simpl.
  exists a, a1, a3, a5, a6. repeat split; assumption.
Qed.

Section Outputs.
Context {ext : External}.

Lemma fit_single_parts self y t m out :
  fit_single self y t m = Ok out ->
  exists fr n st,
    run_loop self y t m = Ok (fr, n, st) /\ finalize fr st = Ok out
    /\ nrow_n fr = length y /\ nan_map fr = create_nan_map y.
Proof.
  intros H. apply fit_single_inv in H as (fr & n & st & Hrun & Hfin).
  exists fr, n, st. split; [exact Hrun|]. split; [exact Hfin|].
  apply run_loop_inv in Hrun as (st0 & Hp & _).
  apply prelude_locals in Hp. tauto.
Qed.

(** C6.  Whatever the series and its missing values, the Trend, Season
    and Remainder arrays [fit_single] returns are the compacted vectors
    of the last pass put back on the original time axis: of length [N],
    with the [k]-th compacted value at position [index_map[k]], a
    fitted value at every observed position, and [nan] at every missing
    one. *)
Theorem components_remapped self y t m out
    (Hret : fit_single self y t m = Ok out) :
  exists fr n st tt ss nn,
    run_loop self y t m = Ok (fr, n, st)
    /\ Tt st = Some tt /\ St st = Some ss /\ Nt st = Some nn
    /\ remapped y tt (Tt_n out)
    /\ remapped y ss (St_n out)
    /\ remapped y nn (Nt_n out).
Proof.
  apply fit_single_parts in Hret as (fr & n & st & Hrun & Hfin & HN & Hmap).
  apply finalize_inv in Hfin
    as (tt & ss & nn & vb & wb & HT & HS & HNt & H1 & H2 & H3 & _).
  rewrite HN, Hmap in H1, H2, H3.
  exists fr, n, st, tt, ss, nn.
  do 4 (split; [assumption|]).
  split; [|split]; now apply setitem_nan_map.
Qed.

(** C7.  In every output of [fit_single] each breakpoint array has
    length [N]; the count returned with it is the number of breakpoints
    and is at most [N]; the first [count] slots hold the remapped
    breakpoint indices (as stored in [int32], which changes nothing for
    [N <= 2^31]); every later slot is zero. *)
Theorem breakpoint_arrays_padded self y t m out
    (Hret : fit_single self y t m = Ok out) :
  exists fr n st vb wb,
    run_loop self y t m = Ok (fr, n, st)
    /\ take_idx (create_nan_map y) (Vt_bp st) = Ok vb
    /\ take_idx (create_nan_map y) (Wt_bp st) = Ok wb
    /\ padded (length y) vb (n_Vt_bp out) (Vt_bp_arr out)
    /\ padded (length y) wb (n_Wt_bp out) (Wt_bp_arr out).
Proof.
  apply fit_single_parts in Hret as (fr & n & st & Hrun & Hfin & HN & Hmap).
  apply finalize_inv in Hfin
    as (tt & ss & nn & vb & wb & _ & _ & _ & _ & _ & _ & Hv & Hw & Hva & Hwa & Hnv & Hnw).
  rewrite HN in Hva, Hwa. rewrite Hmap in Hv, Hw.
  exists fr, n, st, vb, wb. rewrite Hnv, Hnw.
  do 3 (split; [assumption|]).
  split; eapply breakpoint_array_padded; eauto.
Qed.

End Outputs.

Lemma components_remapped_witness :
  exists fr n st tt ss nn,
    run_loop (ext := season_break_ext) dummy3 gappy_series six_dates smod6
    = Ok (fr, n, st)
    /\ Tt st = Some tt /\ St st = Some ss /\ Nt st = Some nn
    /\ remapped gappy_series tt (Tt_n season_break_out)
    /\ remapped gappy_series ss (St_n season_break_out)
    /\ remapped gappy_series nn (Nt_n season_break_out).
Proof.
  apply (components_remapped (ext := season_break_ext)
           dummy3 gappy_series six_dates smod6 season_break_out).
  vm_compute. reflexivity.
Defined.

Lemma breakpoint_arrays_padded_witness :
  exists fr n st vb wb,
    run_loop (ext := season_break_ext) dummy3 gappy_series six_dates smod6
    = Ok (fr, n, st)
    /\ take_idx (create_nan_map gappy_series) (Vt_bp st) = Ok vb
    /\ take_idx (create_nan_map gappy_series) (Wt_bp st) = Ok wb
    /\ padded (length gappy_series) vb (n_Vt_bp season_break_out)
              (Vt_bp_arr season_break_out)
    /\ padded (length gappy_series) wb (n_Wt_bp season_break_out)
              (Wt_bp_arr season_break_out).
Proof.
  apply (breakpoint_arrays_padded (ext := season_break_ext)
           dummy3 gappy_series six_dates smod6 season_break_out).
  vm_compute. reflexivity.
Defined.

(** ** Collaborators that keep the length of the response *)

Lemma np_sub_length a b c :
  np_sub a b = Ok c -> length a = length b -> length c = length a.
Proof.
  unfold np_sub. intros H Hlen.
  rewrite Hlen, Nat.eqb_refl in H. injection H as <-.
  unfold zip_sub. rewrite length_zip_with. lia.
Qed.

Section Contracts.
Context {ext : External}.

(** The contract of the least-squares fit in the design document: the
    fitted values are as many as the responses, the predictions as many
    as the rows they are asked for. *)
Hypothesis predict_own :
  forall y X, length (predict (OLS_fit y X) None) = length y.
Hypothesis predict_new :
  forall y X X', length (predict (OLS_fit y X) (Some X')) = nrows X'.

Lemma prelude_sized self y t m fr st0 :
  prelude self y t m = Ok (fr, st0) ->
  frame_sized fr /\ sized fr (St st0) /\ sized fr (Tt st0) /\ sized fr (Nt st0).
Proof.
  unfold prelude. intros H.
  bind_inv H. bind_inv H. bind_inv H. bind_inv H.
  injection H as <- <-. unfold frame_sized, sized. simpl.
  apply take_idx_length in E, E0, E1.
  repeat split; try congruence; intros v [= <-]; congruence.
Qed.

Lemma trend_step_length self fr s tt vb :
  frame_sized fr -> length s = length (nan_map fr) ->
  trend_step self fr s = Ok (tt, vb) -> length tt = length (nan_map fr).
Proof.
  intros (HY & Ht & _) Hs. unfold trend_step. intros H.
  bind_inv H. bind_inv H. bind_inv H.
  assert (Hno : length (predict (OLS_fit a (column (ti fr))) (Some (column (ti fr))))
                = length (nan_map fr)).
  { rewrite predict_new. unfold nrows, column. cbn [rows].
    now rewrite length_map. }
  destruct a1 as [bp|]; [|injection H as <- _; exact Hno].
  destruct (Nat.eqb _ 0); [injection H as <- _; exact Hno|].
  bind_inv H. bind_inv H. injection H as <- _.
  now rewrite predict_own.
Qed.

Lemma season_step_length self fr tt wb0 ss wb :
  frame_sized fr -> length tt = length (nan_map fr) ->
  season_step self fr tt wb0 = Ok (ss, wb) -> length ss = length (nan_map fr).
Proof.
  intros (HY & _ & Hn) Ht. unfold season_step. intros H.
  destruct (String.eqb _ "none").
  { injection H as <- _. unfold np_zeros. now rewrite length_replicate. }
  bind_inv H. bind_inv H.
  apply np_sub_length in E; [|congruence].
  assert (Hno : length (predict (OLS_fit a a0) None) = length (nan_map fr))
    by (rewrite predict_own; congruence).
  destruct (PrimFloat.leb _ _); [|injection H as <- _; exact Hno].
  destruct (Nat.eqb _ 0); [injection H as <- _; exact Hno|].
  bind_inv H. bind_inv H. injection H as <- _.
  rewrite predict_own. congruence.
Qed.

Lemma body_sized self fr st st' :
  frame_sized fr -> sized fr (St st) ->
  body self fr st = Ok st' ->
  sized fr (St st') /\ sized fr (Tt st') /\ sized fr (Nt st').
Proof.
  intros Hfr HS. unfold body. intros H.
  bind_inv H. apply read_inv in E.
  bind_inv H. destruct a0 as [tt vb].
  bind_inv H. destruct a0 as [ss wb].
  bind_inv H. bind_inv H. injection H as <-. unfold sized. simpl.
  pose proof (trend_step_length _ _ _ _ _ Hfr (HS _ E) E0) as Ht.
  pose proof (season_step_length _ _ _ _ _ _ Hfr Ht E1) as Hs.
  destruct Hfr as (HY & _ & _).
  apply np_sub_length in E2; [|congruence].
  apply np_sub_length in E3; [|congruence].
  repeat split; intros v [= <-]; congruence.
Qed.

Lemma while_loop_sized self fr fuel st n st' :
  frame_sized fr -> sized fr (St st) -> sized fr (Tt st) -> sized fr (Nt st) ->
  while_loop self fr fuel st = Ok (n, st') ->
  sized fr (St st') /\ sized fr (Tt st') /\ sized fr (Nt st').
Proof.
  intros Hfr. revert st n.
  induction fuel as [|fuel IH]; intros st n HS HT HN; simpl.
  - destruct (loop_cond self st); intros [= <- <-]; auto.
  - destruct (loop_cond self st); [|intros [= <- <-]; auto].
    intros H. bind_inv H. bind_inv H. destruct a0 as [k s].
    injection H as <- <-.
    destruct (body_sized _ _ _ _ Hfr HS E) as (HS' & HT' & HN').
    eapply IH; eauto.
Qed.

(** With such collaborators no value is broadcast: the [k]-th value of
    each compacted vector sits at [index_map[k]], for every [k]. *)
Lemma components_aligned self y t m out :
  fit_single self y t m = Ok out ->
  exists tt ss nn,
    length tt = length (create_nan_map y)
    /\ length ss = length (create_nan_map y)
    /\ length nn = length (create_nan_map y)
    /\ remapped y tt (Tt_n out) /\ remapped y ss (St_n out)
    /\ remapped y nn (Nt_n out).
Proof.
  intros H. apply fit_single_inv in H as (fr & n & st & Hrun & Hfin).
  apply run_loop_inv in Hrun as (st0 & Hp & Hw).
  pose proof (prelude_locals _ _ _ _ _ _ Hp) as (_ & _ & _ & _ & _ & _ & _ & HN & Hmap).
  apply prelude_sized in Hp as (Hfr & HS & HT & HNt).
  destruct (while_loop_sized _ _ _ _ _ _ Hfr HS HT HNt Hw) as (HS' & HT' & HN').
  apply finalize_inv in Hfin
    as (tt & ss & nn & vb & wb & ET & ES & EN & H1 & H2 & H3 & _).
  rewrite HN, Hmap in H1, H2, H3. unfold sized in HS', HT', HN'.
  rewrite Hmap in HS', HT', HN'.
  exists tt, ss, nn.
  split; [now apply HT'|]. split; [now apply HS'|]. split; [now apply HN'|].
  split; [|split]; now apply setitem_nan_map.
Qed.

End Contracts.

(** The scripted collaborators keep that contract. *)
Lemma scripted_keeps_lengths seed pT pS bT bS :
  (forall y X, length (predict (External := scripted seed pT pS bT bS)
                         (OLS_fit y X) None) = length y)
  /\ (forall y X X', length (predict (External := scripted seed pT pS bT bS)
                              (OLS_fit y X) (Some X')) = nrows X').
Proof.
  split; intros; simpl; [reflexivity|].
  unfold np_zeros. apply length_replicate.
Qed.

Lemma season_break_run_aligned :
  exists tt ss nn,
    length tt = 4%nat /\ length ss = 4%nat /\ length nn = 4%nat
    /\ remapped gappy_series tt (Tt_n season_break_out)
    /\ remapped gappy_series ss (St_n season_break_out)
    /\ remapped gappy_series nn (Nt_n season_break_out).
Proof.
  destruct (scripted_keeps_lengths (fun y => y) 1%float 0%float
              (fun _ => []) (fun _ => [1])) as [H1 H2].
  apply (components_aligned (ext := season_break_ext) H1 H2
           dummy3 gappy_series six_dates smod6 season_break_out).
  vm_compute. reflexivity.
Qed.

(** ** A series with no observation *)

Section AllMissing.
Context {ext : External}.

(** With every value missing the compacted arrays are empty; the first
    pass of the loop asks [add_constant] for the regressors of an empty
    time axis, whose [np.ptp] has nothing to reduce; with [max_iter <= 1]
    there is no pass and [Tt] is unassigned. *)
Lemma all_missing_raises self y t m :
  Forall (fun x => PrimFloat.is_nan x = true) y ->
  fit_single self y t m
  = if 1 <? max_iter self then Raise ZeroSizeReduction
    else Raise (UnboundLocalError "Tt").
Proof.
  intros Hy. unfold fit_single, run_loop, prelude, create_nan_map.
  rewrite (nan_map_from_all_missing 0 y Hy).
  assert (Hm : forall A (a : list A), take_idx a [] = Ok []) by reflexivity.
  rewrite !Hm. simpl.
  destruct m as [m|]; simpl.
  all: destruct (Z.ltb_spec 1 (max_iter self)) as [Hlt|Hge].
  all: destruct (loop_fuel self) as [|fuel] eqn:F;
    try (unfold loop_fuel in F; lia).
  all: simpl; unfold loop_cond; simpl.
  all: try (destruct (Z.ltb_spec 1 (max_iter self)); [|lia]).
  all: try (destruct (Z.ltb_spec 1 (max_iter self)); [lia|]).
  all: reflexivity.
Qed.

End AllMissing.

(** C4 at a failing input: for a series of three missing values and the
    constructor's defaults, [fit_single] raises, whatever the
    collaborators and the seasonal design. *)
Theorem all_missing_pixel_raises :
  forall (ext : External) (m : option ndarray2),
    fit_single (ext := ext) dummy3
      [PrimFloat.nan; PrimFloat.nan; PrimFloat.nan]
      [1%float; 2%float; 3%float] m
    = Raise ZeroSizeReduction.
Proof.
  intros ext m.
  rewrite all_missing_raises; [reflexivity|].
  repeat constructor.
Qed.

(** ** Which indices and which response *)

Section Steps.
Context {ext : External}.

(** The trend breakpoints are kept in compacted space by the loop... *)
Lemma trend_step_breakpoints self fr s tt vb :
  trend_step self fr s = Ok (tt, vb) ->
  vb = [] \/ exists X y, vb = breakpoints (Breakpoints X y (h self) (max_breaks self)).
Proof.
  unfold trend_step. intros H. bind_inv H. bind_inv H. bind_inv H.
  destruct a1 as [bp|]; [|injection H as <- <-; auto].
  destruct (Nat.eqb _ 0); [injection H as <- <-; auto|].
  bind_inv H. bind_inv H. injection H as <- <-.
  destruct (PrimFloat.leb _ _); [|discriminate].
  destruct (omit_nans (ti fr) a) as [ti1 Vt1]. bind_inv E1.
  injection E1 as <-. eauto.
Qed.

(** ... while the seasonal ones are already passed through the index map
    inside the loop (line 278), and [finalize] passes them through it
    again (line 296). *)
Lemma season_step_breakpoints self fr tt wb0 ss wb :
  season_step self fr tt wb0 = Ok (ss, wb) ->
  wb = [] \/ wb = wb0
  \/ exists X y,
      take_idx (nan_map fr) (breakpoints (Breakpoints X y (h self) (max_breaks self)))
      = Ok wb.
Proof.
  unfold season_step. intros H.
  destruct (String.eqb _ "none"); [injection H as <- <-; auto|].
  bind_inv H. bind_inv H.
  destruct (PrimFloat.leb _ _); [|injection H as <- <-; auto].
  destruct (Nat.eqb _ 0); [injection H as <- <-; auto|].
  bind_inv H. bind_inv H. injection H as <- <-. eauto.
Qed.

(** Without a trend break the response of the trend regression is the
    deseasonalized series [Yt - St] (line 229)... *)
Lemma trend_step_no_break self fr s tt :
  trend_step self fr s = Ok (tt, []) ->
  exists Vt, np_sub (Yt fr) s = Ok Vt
             /\ tt = predict (OLS_fit Vt (column (ti fr))) (Some (column (ti fr))).
Proof.
  unfold trend_step. intros H. bind_inv H. bind_inv H. bind_inv H.
  exists a. split; [exact E|].
  destruct a1 as [bp|]; [|now injection H as <-].
  destruct (Nat.eqb_spec (length (breakpoints bp)) 0) as [|Hne];
    [now injection H as <-|].
  bind_inv H. bind_inv H. injection H as <- Hbp.
  rewrite Hbp in Hne. contradiction.
Qed.

(** ... and with a trend break it is the observations [Yt] themselves
    (line 237): the seasonal estimate is not subtracted. *)
Lemma trend_step_break self fr s tt vb :
  trend_step self fr s = Ok (tt, vb) -> vb <> [] ->
  exists part X, tt = predict (OLS_fit (Yt fr) (partition_matrix part X)) None.
Proof.
  unfold trend_step. intros H Hvb. bind_inv H. bind_inv H. bind_inv H.
  destruct a1 as [bp|]; [|injection H as <- <-; contradiction].
  destruct (Nat.eqb _ 0); [injection H as <- <-; contradiction|].
  bind_inv H. bind_inv H. injection H as <- <-. eauto.
Qed.

End Steps.

(** C1 at a failing input.  The index map of [gappy_series] is
    [1; 3; 4; 5]; the seasonal search finds the compacted breakpoint
    [1], whose original index is [3]; [fit_single] returns [5], the
    index map applied twice.  (The trend breakpoint of the run with
    [trend_break_ext], compacted [2], is returned as [4].) *)
Theorem seasonal_breakpoint_remapped_twice :
  create_nan_map gappy_series = [1; 3; 4; 5]
  /\ (forall X y hh mb, breakpoints (Breakpoints (External := season_break_ext)
                          (Arr2 3 X) y hh mb) = [1])
  /\ take_idx (create_nan_map gappy_series) [1] = Ok [3]
  /\ (exists out,
        fit_single (ext := season_break_ext) dummy3 gappy_series six_dates smod6 = Ok out
        /\ Wt_bp_arr out = [5; 0; 0; 0; 0; 0] /\ n_Wt_bp out = 1%nat)
  /\ (exists out,
        fit_single (ext := trend_break_ext) dummy3 gappy_series six_dates smod6 = Ok out
        /\ Vt_bp_arr out = [4; 0; 0; 0; 0; 0] /\ n_Vt_bp out = 1%nat).
Proof.
  split; [reflexivity|]. split; [reflexivity|]. split; [reflexivity|].
  split; eexists; (split; [vm_compute; reflexivity|]); split; reflexivity.
Qed.

(** C5 at a failing input.  In the first pass of the run with
    [trend_break_ext] the seasonal estimate is one everywhere and a
    trend break is found; the trend is the fit of the observations
    [1; 2; 3; 4], not of the deseasonalized series [0; 1; 2; 3]. *)
Theorem trend_break_fits_observations :
  let fr := fst trend_break_start in
  let s := [1%float; 1%float; 1%float; 1%float] in
  St (snd trend_break_start) = Some s
  /\ Yt fr = [1%float; 2%float; 3%float; 4%float]
  /\ np_sub (Yt fr) s = Ok [0%float; 1%float; 2%float; 3%float]
  /\ exists X1,
      trend_step (ext := trend_break_ext) dummy3 fr s
      = Ok (predict (OLS_fit (External := trend_break_ext) (Yt fr) X1) None, [2])
      /\ predict (OLS_fit (External := trend_break_ext) (Yt fr) X1) None
         <> predict (OLS_fit (External := trend_break_ext)
                       [0%float; 1%float; 2%float; 3%float] X1) None.
Proof.
  split; [reflexivity|]. split; [reflexivity|]. split; [reflexivity|].
  exists (Arr2 2 [[1%float; 2%float]; [1%float; 4%float];
                  [1%float; 5%float]; [1%float; 6%float]]).
  split; [vm_compute; reflexivity | vm_compute; discriminate].
Qed.

(** ** The seasonal design of type "dummy" *)

Lemma np_eye_lookup n r :
  (r < n)%nat ->
  np_eye n !! r = Some (map (fun j => if Nat.eqb r j then fone else fzero) (seq 0 n)).
Proof.
  intros H. unfold np_eye. rewrite list_lookup_fmap.
  rewrite lookup_seq_lt by exact H. reflexivity.
Qed.

Lemma np_eye_length n : length (np_eye n) = n.
Proof. unfold np_eye. now rewrite length_map, length_seq. Qed.

Lemma dummy_eye_box_length f : 1 <= f -> length (dummy_eye_box f) = Z.to_nat f.
Proof.
  intros H. unfold dummy_eye_box. rewrite length_app, np_eye_length. simpl. lia.
Qed.

Lemma dummy_eye_box_lookup f r :
  1 <= f -> (r < Z.to_nat f)%nat ->
  dummy_eye_box f !! r = Some (dummy_block_row (Z.to_nat f) r).
Proof.
  intros Hf Hr. unfold dummy_eye_box, dummy_block_row, np_repeat.
  replace (Z.to_nat f - 1)%nat with (Z.to_nat (f - 1)) by lia.
  destruct (Nat.eqb_spec r (Z.to_nat (f - 1))) as [->|Hne].
  - rewrite lookup_app_r by (rewrite np_eye_length; lia).
    rewrite np_eye_length, Nat.sub_diag. reflexivity.
  - rewrite lookup_app_l by (rewrite np_eye_length; lia).
    apply np_eye_lookup. lia.
Qed.

Lemma np_tile_rows_length block k :
  length (np_tile_rows block k) = (k * length block)%nat.
Proof.
  unfold np_tile_rows. induction k as [|k IH]; simpl; [reflexivity|].
  rewrite length_app, IH. reflexivity.
Qed.

Lemma np_tile_rows_lookup block k i :
  (i < k * length block)%nat ->
  np_tile_rows block k !! i = block !! (i mod length block)%nat.
Proof.
  unfold np_tile_rows. revert i. induction k as [|k IH]; intros i Hi; simpl in *; [lia|].
  destruct (Nat.lt_ge_cases i (length block)) as [Hlt|Hge].
  - rewrite lookup_app_l by exact Hlt. now rewrite Nat.mod_small.
  - rewrite lookup_app_r by exact Hge. rewrite IH by lia.
    f_equal. replace i with ((i - length block) + 1 * length block)%nat at 2 by lia.
    now rewrite Nat.Div0.mod_add.
Qed.

Lemma ceil_div_covers n f : 0 <= n -> 1 <= f -> n <= ceil_div n f * f.
Proof.
  intros Hn Hf. unfold ceil_div.
  pose proof (Z.div_mod (n + f - 1) f ltac:(lia)).
  pose proof (Z.mod_pos_bound (n + f - 1) f ltac:(lia)). nia.
Qed.

Lemma ceil_div_nonneg n f : 0 <= n -> 1 <= f -> 0 <= ceil_div n f.
Proof. intros Hn Hf. unfold ceil_div. apply Z.div_pos; lia. Qed.

(** The tiled and truncated block, before the intercept is added. *)
Lemma dummy_rows_lookup f N i :
  1 <= f -> (i < N)%nat ->
  take N (np_tile_rows (dummy_eye_box f) (Z.to_nat (ceil_div (Z.of_nat N) f))) !! i
  = Some (dummy_block_row (Z.to_nat f) (i mod Z.to_nat f)).
Proof.
  intros Hf Hi.
  pose proof (ceil_div_covers (Z.of_nat N) f ltac:(lia) Hf) as Hc.
  pose proof (ceil_div_nonneg (Z.of_nat N) f ltac:(lia) Hf) as Hc0.
  rewrite lookup_take_lt by exact Hi.
  rewrite np_tile_rows_lookup; rewrite dummy_eye_box_length by exact Hf.
  - apply dummy_eye_box_lookup; [exact Hf|]. apply Nat.mod_upper_bound. lia.
  - nia.
Qed.

Lemma dummy_rows_length f N :
  1 <= f ->
  length (take N (np_tile_rows (dummy_eye_box f) (Z.to_nat (ceil_div (Z.of_nat N) f))))
  = N.
Proof.
  intros Hf.
  pose proof (ceil_div_covers (Z.of_nat N) f ltac:(lia) Hf) as Hc.
  pose proof (ceil_div_nonneg (Z.of_nat N) f ltac:(lia) Hf) as Hc0.
  rewrite length_take, np_tile_rows_length, dummy_eye_box_length by exact Hf. nia.
Qed.

Lemma mapM_const {A B} (f : A -> result B) (l : list A) (b : B) :
  (forall a, a ∈ l -> f a = Ok b) -> mapM f l = Ok (replicate (length l) b).
Proof.
  induction l as [|a l IH]; intros H; simpl; [reflexivity|].
  rewrite (H a) by apply list_elem_of_here. simpl.
  rewrite IH; [reflexivity|]. intros a' Ha'. apply H. now apply list_elem_of_further.
Qed.

Lemma existsb_id_replicate_false n : existsb id (replicate n false) = false.
Proof. induction n; simpl; auto. Qed.

Lemma has_zero_not_all_nonzero (c : vec) i a :
  c !! i = Some a -> PrimFloat.eqb a fzero = true ->
  forallb (fun a => negb (PrimFloat.eqb a fzero)) c = false.
Proof.
  revert i. induction c as [|x c IH]; intros i; [easy|].
  destruct i as [|i]; simpl.
  - intros [= ->] ->. reflexivity.
  - intros Hi Ha. rewrite (IH i Hi Ha). apply andb_false_r.
Qed.

Lemma foldl_fmax_one l : Forall plus_minus_one l -> foldl fmax fone l = fone.
Proof.
  induction 1 as [|a l [->| ->] _ IH]; simpl; [reflexivity| |]; exact IH.
Qed.

Lemma foldl_fmin_minus_one l :
  Forall plus_minus_one l -> foldl fmin fminus_one l = fminus_one.
Proof.
  induction 1 as [|a l [->| ->] _ IH]; simpl; [reflexivity| |]; exact IH.
Qed.

Lemma alternating_column_not_constant (c : vec) :
  c !! 0%nat = Some fone -> c !! 1%nat = Some fminus_one ->
  Forall plus_minus_one c ->
  is_nonzero_const c = Ok false.
Proof.
  destruct c as [|a [|b c]]; try discriminate.
  intros [= ->] [= ->] Hc.
  apply Forall_cons in Hc as [_ Hc]. apply Forall_cons in Hc as [_ Hc].
  unfold is_nonzero_const, np_ptp, bind.
  cbn [foldl]. change (fmax fone fminus_one) with fone.
  change (fmin fone fminus_one) with fminus_one.
  rewrite foldl_fmax_one, foldl_fmin_minus_one by exact Hc. reflexivity.
Qed.

Lemma dummy_block_row_nth f r j :
  (j < f - 1)%nat ->
  nth j (dummy_block_row f r) PrimFloat.zero
  = if Nat.eqb r (f - 1) then fminus_one
    else if Nat.eqb r j then fone else fzero.
Proof.
  intros Hj. unfold dummy_block_row. rewrite nth_lookup.
  destruct (Nat.eqb r (f - 1)).
  - now rewrite lookup_replicate_2.
  - rewrite list_lookup_fmap, lookup_seq_lt by exact Hj. reflexivity.
Qed.

Lemma dummy_column_lookup f N j i :
  1 <= f -> (i < N)%nat ->
  col j (Arr2 (Z.to_nat (f - 1))
           (take N (np_tile_rows (dummy_eye_box f)
                      (Z.to_nat (ceil_div (Z.of_nat N) f))))) !! i
  = Some (nth j (dummy_block_row (Z.to_nat f) (i mod Z.to_nat f)) PrimFloat.zero).
Proof.
  intros Hf Hi. unfold col. cbn [rows].
  rewrite list_lookup_fmap, dummy_rows_lookup by assumption. reflexivity.
Qed.

Lemma dummy_columns_not_constant f N j :
  2 <= f -> (2 <= N)%nat -> (j < Z.to_nat (f - 1))%nat ->
  is_nonzero_const
    (col j (Arr2 (Z.to_nat (f - 1))
              (take N (np_tile_rows (dummy_eye_box f)
                         (Z.to_nat (ceil_div (Z.of_nat N) f))))))
  = Ok false.
Proof.
  intros Hf HN Hj.
  set (c := col j _).
  assert (Hc : forall i, (i < N)%nat ->
            c !! i = Some (nth j (dummy_block_row (Z.to_nat f) (i mod Z.to_nat f))
                               PrimFloat.zero)).
  { intros i Hi. apply dummy_column_lookup; [lia | exact Hi]. }
  assert (Hlen : length c = N).
  { unfold c, col. cbn [rows]. rewrite length_map. apply dummy_rows_length. lia. }
  destruct (Z.eq_dec f 2) as [->|Hf3].
  - (* one column, alternating 1 and -1 *)
    assert (j = 0%nat) as -> by lia.
    apply alternating_column_not_constant.
    + rewrite Hc by lia. reflexivity.
    + rewrite Hc by lia. reflexivity.
    + apply Forall_lookup. intros i a Hi.
      assert (HiN : (i < N)%nat) by (apply lookup_lt_Some in Hi; lia).
      rewrite (Hc i HiN) in Hi. change (Z.to_nat 2) with 2%nat in Hi.
      assert (Hm : (i mod 2 < 2)%nat) by (apply Nat.mod_upper_bound; lia).
      revert Hi Hm. generalize (i mod 2)%nat. intros r Hi Hr.
      destruct r as [|[|?]]; [left | right | lia];
        vm_compute in Hi; injection Hi as <-; reflexivity.
  - (* at least two columns: each has a zero in row 0 or in row 1 *)
    assert (Hz : exists i, c !! i = Some fzero) .
    { destruct j as [|j].
      - exists 1%nat. rewrite Hc by lia.
        rewrite Nat.mod_small by lia.
        rewrite dummy_block_row_nth by lia.
        destruct (Nat.eqb_spec 1 (Z.to_nat f - 1)); [lia | reflexivity].
      - exists 0%nat. rewrite Hc by lia.
        rewrite Nat.Div0.mod_0_l.
        rewrite dummy_block_row_nth by lia.
        destruct (Nat.eqb_spec 0 (Z.to_nat f - 1)); [lia | reflexivity]. }
    destruct Hz as [i Hi].
    unfold is_nonzero_const.
    rewrite (has_zero_not_all_nonzero c i fzero Hi eq_refl).
    destruct c as [|a c']; [simpl in Hlen; lia|].
    simpl. now rewrite andb_false_r.
Qed.

Lemma dummy_block_row_length f r : length (dummy_block_row f r) = (f - 1)%nat.
Proof.
  unfold dummy_block_row. destruct (Nat.eqb r (f - 1)).
  - apply length_replicate.
  - now rewrite length_map, length_seq.
Qed.

(** C8, as stated, fails for a single date: the truncated block is the
    one row [1] (for frequency 2), which [add_constant] takes for a
    constant column already there, so that no intercept is added and
    the design has one column, not two. *)
Lemma dummy_design_single_date :
  build_seasonal_model (ext := restless_ext) (BFASTPython_init 2) [1%float]
  = Ok (Some (Arr2 1 [[fone]]))
  /\ ~ (exists M,
          build_seasonal_model (ext := restless_ext) (BFASTPython_init 2) [1%float]
          = Ok (Some M)
          /\ nrows M = 1%nat /\ ncols M = 2%nat).
Proof.
  split; [reflexivity|].
  intros (M & HM & _ & Hc). vm_compute in HM. injection HM as <-.
  discriminate Hc.
Qed.

Section DummyDesign.
Context {ext : External}.

(** C8, amended.  For every frequency [f >= 2] and every series of at
    least two dates, the seasonal design of type "dummy" has [N] rows
    and [f] columns, and its row [i] is the intercept [1] followed by
    row [i mod f] of the block made of the identity of size [f - 1] on
    top of a row of [-1]. *)
Theorem dummy_seasonal_design self ti
    (Hs : season_type self = "dummy"%string)
    (Hf : 2 <= frequency self)
    (HN : (2 <= length ti)%nat) :
  exists M,
    build_seasonal_model self ti = Ok (Some M)
    /\ nrows M = length ti
    /\ ncols M = Z.to_nat (frequency self)
    /\ (forall i, (i < length ti)%nat ->
                  rows M !! i = Some (dummy_design_row (Z.to_nat (frequency self)) i))
    /\ Forall (fun r => length r = Z.to_nat (frequency self)) (rows M).
Proof.
  set (f := frequency self) in *. set (N := length ti) in *.
  set (body := take N (np_tile_rows (dummy_eye_box f)
                         (Z.to_nat (ceil_div (Z.of_nat N) f)))).
  assert (Hadd : add_constant (Arr2 (Z.to_nat (f - 1)) body)
                 = Ok (Arr2 (S (Z.to_nat (f - 1))) (map (fun r => fone :: r) body))).
  { unfold add_constant. cbn [ncols rows].
    rewrite (mapM_const _ _ false).
    - simpl. now rewrite existsb_id_replicate_false.
    - intros j Hj. apply elem_of_seq in Hj.
      apply dummy_columns_not_constant; lia. }
  assert (Hrow : forall i, (i < N)%nat ->
            map (fun r => fone :: r) body !! i = Some (dummy_design_row (Z.to_nat f) i)).
  { intros i Hi. rewrite list_lookup_fmap. unfold body.
    rewrite dummy_rows_lookup by lia. reflexivity. }
  exists (Arr2 (S (Z.to_nat (f - 1))) (map (fun r => fone :: r) body)).
  split.
  - unfold build_seasonal_model. fold f. fold N. rewrite Hs.
    change (String.eqb "dummy" "harmonic") with false.
    change (String.eqb "dummy" "dummy") with true. cbv iota.
    destruct (Z.ltb_spec (f - 1) 0); [lia|].
    fold body. rewrite Hadd. reflexivity.
  - unfold nrows. cbn [rows ncols]. repeat split.
    + rewrite length_map. unfold body. apply dummy_rows_length. lia.
    + lia.
    + exact Hrow.
    + apply Forall_lookup. intros i r Hi.
      assert (HiN : (i < N)%nat).
      { apply lookup_lt_Some in Hi. rewrite length_map in Hi.
        unfold body in Hi. rewrite dummy_rows_length in Hi; lia. }
      rewrite (Hrow i HiN) in Hi. injection Hi as <-.
      unfold dummy_design_row. cbn [length]. rewrite dummy_block_row_length. lia.
Qed.

End DummyDesign.

Lemma dummy_seasonal_design_witness :
  exists M,
    build_seasonal_model (ext := restless_ext) dummy3 six_dates = Ok (Some M)
    /\ nrows M = length six_dates
    /\ ncols M = Z.to_nat (frequency dummy3)
    /\ (forall i, (i < length six_dates)%nat ->
                  rows M !! i = Some (dummy_design_row (Z.to_nat (frequency dummy3)) i))
    /\ Forall (fun r => length r = Z.to_nat (frequency dummy3)) (rows M).
Proof.
  apply (dummy_seasonal_design (ext := restless_ext) dummy3 six_dates).
  - reflexivity.
  - simpl. lia.
  - simpl. lia.
Defined.

(** The second pass through the index map can leave it: the compacted
    breakpoint [2] is stored as [4] by the loop, and the index map has
    only four entries. *)
Lemma seasonal_breakpoint_out_of_range :
  take_idx (create_nan_map gappy_series) [2] = Ok [4]
  /\ fit_single (ext := late_season_break_ext) dummy3 gappy_series six_dates smod6
     = Raise IndexError.
Proof. split; vm_compute; reflexivity. Qed.


(** * Further properties of [fit_single] and [fit] *)

(** ** Which exceptions can be raised *)

Lemma raises_in_Ok {A} P (a : A) : raises_in P (Ok a).
Proof. intros e H. discriminate H. Qed.

Lemma raises_in_Raise {A} (P : exn -> Prop) e : P e -> raises_in (A := A) P (Raise e).
Proof. intros H e' [= <-]. exact H. Qed.

Lemma raises_in_bind {A B} P (m : result A) (k : A -> result B) :
  raises_in P m -> (forall a, m = Ok a -> raises_in P (k a)) ->
  raises_in P (bind m k).
Proof.
  intros Hm Hk e. destruct m as [a|e']; simpl.
  - now apply Hk.
  - intros [= ->]. now apply Hm.
Qed.

Lemma raises_in_weaken {A} (P Q : exn -> Prop) (r : result A) :
  (forall e, P e -> Q e) -> raises_in P r -> raises_in Q r.
Proof. intros HPQ H e He. apply HPQ, H, He. Qed.

Lemma raises_in_mapM {A B} P (f : A -> result B) l :
  (forall a, raises_in P (f a)) -> raises_in P (mapM f l).
Proof.
  intros Hf. induction l as [|a l IH]; simpl; [apply raises_in_Ok|].
  apply raises_in_bind; [apply Hf|]. intros b _.
  apply raises_in_bind; [apply IH|]. intros bs _. apply raises_in_Ok.
Qed.

Create HintDb raises.

Ltac raises_step :=
  match goal with
  | |- raises_in _ (Ok _) => apply raises_in_Ok
  | |- raises_in _ (Raise _) => apply raises_in_Raise; unfold array_error; tauto
  | |- raises_in _ (bind _ _) => apply raises_in_bind
  | |- raises_in _ (mapM _ _) => apply raises_in_mapM
  | |- raises_in _ (match ?x with _ => _ end) => destruct x
  | |- forall _, _ => intro
  | |- raises_in _ _ => solve [auto with raises]
  end.
Ltac raises_tac := repeat raises_step.

Lemma raises_norm_index n i : raises_in array_error (norm_index n i).
Proof. unfold norm_index. raises_tac. Qed.
#[local] Hint Resolve raises_norm_index : raises.

Lemma raises_getitem {A} (a : list A) i : raises_in array_error (getitem a i).
Proof. unfold getitem. raises_tac. Qed.
#[local] Hint Resolve raises_getitem : raises.

Lemma raises_take_idx {A} (a : list A) idx : raises_in array_error (take_idx a idx).
Proof. unfold take_idx. raises_tac. Qed.

Lemma raises_take_mask {A} (a : list A) mask : raises_in array_error (take_mask a mask).
Proof. unfold take_mask. raises_tac. Qed.

Lemma raises_broadcast_to {A} n (v : list A) : raises_in array_error (broadcast_to n v).
Proof. unfold broadcast_to. raises_tac. Qed.
#[local] Hint Resolve raises_take_idx raises_take_mask raises_broadcast_to : raises.

Lemma raises_setitem_idx {A} (a : list A) idx v :
  raises_in array_error (setitem_idx a idx v).
Proof. unfold setitem_idx. raises_tac. Qed.

Lemma raises_setitem_prefix a k v : raises_in array_error (setitem_prefix a k v).
Proof. unfold setitem_prefix. raises_tac. Qed.

Lemma raises_np_sub a b : raises_in array_error (np_sub a b).
Proof. unfold np_sub. raises_tac. Qed.

Lemma raises_is_nonzero_const c : raises_in array_error (is_nonzero_const c).
Proof. unfold is_nonzero_const, np_ptp. raises_tac. Qed.
#[local] Hint Resolve raises_setitem_idx raises_setitem_prefix raises_np_sub
  raises_is_nonzero_const : raises.

Lemma raises_add_constant x : raises_in array_error (add_constant x).
Proof. unfold add_constant. raises_tac. Qed.
#[local] Hint Resolve raises_add_constant : raises.

Section FailureModes.
Context {ext : External}.

Lemma raises_trend_step self fr s : raises_in array_error (trend_step self fr s).
Proof. unfold trend_step. raises_tac. Qed.

Lemma raises_season_step self fr tt wb :
  raises_in (body_error self fr) (season_step self fr tt wb).
Proof.
  unfold season_step.
  destruct (String.eqb_spec (season_type self) "none") as [|Hnone];
    [apply raises_in_Ok|].
  apply raises_in_bind.
  { eapply raises_in_weaken; [|apply raises_np_sub]. unfold body_error. tauto. }
  intros Wt _. destruct (smod fr) as [sm|] eqn:Hsm; simpl.
  - destruct (PrimFloat.leb _ _); [|apply raises_in_Ok].
    destruct (Nat.eqb _ 0); [apply raises_in_Ok|].
    destruct (seasonal_requested self) eqn:Hreq; simpl.
    + apply raises_in_bind; [|intros; apply raises_in_Ok].
      eapply raises_in_weaken; [|apply raises_take_idx]. unfold body_error. tauto.
    + apply raises_in_Raise. unfold body_error. tauto.
  - apply raises_in_Raise. unfold body_error. tauto.
Qed.

Lemma raises_body self fr st :
  assigned st -> raises_in (body_error self fr) (body self fr st).
Proof.
  intros [[s Hs] _]. unfold body. rewrite Hs. simpl.
  apply raises_in_bind.
  { eapply raises_in_weaken; [|apply raises_trend_step]. unfold body_error. tauto. }
  intros [tt vb] _. apply raises_in_bind; [apply raises_season_step|].
  intros [ss wb] _.
  apply raises_in_bind.
  { eapply raises_in_weaken; [|apply raises_np_sub]. unfold body_error. tauto. }
  intros d _. apply raises_in_bind; [|intros; apply raises_in_Ok].
  eapply raises_in_weaken; [|apply raises_np_sub]. unfold body_error. tauto.
Qed.

Lemma body_assigned self fr st st' :
  body self fr st = Ok st' ->
  (exists s, St st' = Some s) /\ exists tt nn, Tt st' = Some tt /\ Nt st' = Some nn.
Proof.
  unfold body. intros H. bind_inv H. bind_inv H. destruct a0 as [tt vb].
  bind_inv H. destruct a0 as [ss wb]. bind_inv H. bind_inv H.
  injection H as <-. simpl. eauto 6.
Qed.

Lemma raises_while_loop self fr fuel st :
  assigned st -> raises_in (body_error self fr) (while_loop self fr fuel st).
Proof.
  revert st. induction fuel as [|fuel IH]; intros st Hst; simpl.
  - destruct (loop_cond self st); apply raises_in_Ok.
  - destruct (loop_cond self st); [|apply raises_in_Ok].
    apply raises_in_bind; [now apply raises_body|].
    intros st' Hb. apply raises_in_bind; [|intros [? ?] _; apply raises_in_Ok].
    apply IH. apply body_assigned in Hb as [HS HT]. split; auto.
Qed.

(** A loop that made no pass has changed nothing; one that made a pass
    has assigned [Tt] and [Nt]. *)
Lemma while_loop_assigned self fr fuel st n st' :
  while_loop self fr fuel st = Ok (n, st') ->
  (n = 0%nat -> st' = st)
  /\ (n <> 0%nat ->
      (exists s, St st' = Some s)
      /\ exists tt nn, Tt st' = Some tt /\ Nt st' = Some nn).
Proof.
  revert st n. induction fuel as [|fuel IH]; intros st n; simpl.
  - destruct (loop_cond self st); intros [= <- <-]; split; congruence.
  - destruct (loop_cond self st); [|intros [= <- <-]; split; congruence].
    intros H. bind_inv H. bind_inv H. destruct a0 as [k s].
    injection H as <- <-. split; [discriminate|]. intros _.
    destruct (IH _ _ E0) as [H0 HS].
    destruct k as [|k].
    + rewrite (H0 eq_refl). eapply body_assigned; eauto.
    + apply HS. discriminate.
Qed.

Lemma raises_prelude self y t m : raises_in array_error (prelude self y t m).
Proof. unfold prelude. raises_tac. Qed.

Lemma prelude_smod self y t m fr st0 :
  prelude self y t m = Ok (fr, st0) -> (smod fr = None <-> m = None).
Proof.
  unfold prelude. intros H. bind_inv H. bind_inv H. bind_inv H. bind_inv H.
  injection H as <- _. simpl. destruct m as [x|]; simpl in E2.
  - bind_inv E2. injection E2 as <-. split; discriminate.
  - injection E2 as <-. tauto.
Qed.

Lemma prelude_assigned self y t m fr st0 :
  prelude self y t m = Ok (fr, st0) -> assigned st0.
Proof.
  intros H. apply prelude_locals in H as (_ & _ & _ & _ & HT & HN & HS & _).
  split; auto.
Qed.

Lemma raises_finalize fr st :
  (exists s, St st = Some s) ->
  (Tt st = None \/ exists tt nn, Tt st = Some tt /\ Nt st = Some nn) ->
  raises_in (fun e => array_error e \/ (e = UnboundLocalError "Tt" /\ Tt st = None))
            (finalize fr st).
Proof.
  intros [s Hs] HT. unfold finalize.
  destruct HT as [HT|(tt & nn & HT & HN)].
  - rewrite HT. simpl. apply raises_in_Raise. auto.
  - rewrite HT, Hs, HN. simpl.
    eapply raises_in_weaken; [intros e He; left; exact He|]. raises_tac.
Qed.

Lemma fit_single_raises self y t m e :
  fit_single self y t m = Raise e -> fit_single_error self m e.
Proof.
  intros Hraise. unfold fit_single, run_loop in Hraise.
  destruct (prelude self y t m) as [[fr st0]|e0] eqn:Hp; simpl in Hraise.
  2:{ injection Hraise as <-. left. now apply (raises_prelude self y t m). }
  pose proof (prelude_assigned _ _ _ _ _ _ Hp) as Hst0.
  destruct (while_loop self fr (loop_fuel self) st0) as [[n st]|e1] eqn:Hw;
    simpl in Hraise.
  2:{ injection Hraise as <-.
      destruct (raises_while_loop self fr (loop_fuel self) st0 Hst0 _ Hw)
        as [H|[(-> & Hs & Hn)|H]]; unfold fit_single_error; auto.
      right. right. left. repeat split; auto.
      now apply (prelude_smod _ _ _ _ _ _ Hp). }
  destruct (while_loop_assigned _ _ _ _ _ _ Hw) as [H0 HS].
  assert (Hfin : (exists s, St st = Some s)
                 /\ (Tt st = None \/ exists tt nn, Tt st = Some tt /\ Nt st = Some nn)).
  { destruct n as [|n].
    - rewrite (H0 eq_refl). destruct Hst0 as [HS0 [[HT _]|HT]]; auto.
    - destruct HS as [HS1 HT1]; [discriminate|]. auto. }
  destruct Hfin as [HSt HTt].
  destruct (raises_finalize fr st HSt HTt _ Hraise) as [H|[-> HT]]; [now left|].
  right. left. split; [reflexivity|].
  destruct n as [|n].
  - pose proof (while_loop_exit self fr (loop_fuel self) st0 0%nat st) as Hexit.
    pose proof (prelude_locals _ _ _ _ _ _ Hp) as (Hv & _ & Hc & Hi & _).
    destruct (Z.le_gt_cases (max_iter self) 1) as [Hle|Hgt]; [exact Hle|].
    assert (loop_cond self st = false) as Hcond.
    { apply Hexit; [unfold loop_fuel; lia | exact Hw]. }
    rewrite (H0 eq_refl) in Hcond.
    assert (loop_cond self st0 = true); [|congruence].
    apply loop_cond_true. rewrite Hv, Hc, Hi. split; [discriminate | lia].
  - destruct HS as [_ (tt & nn & HT' & _)]; [discriminate|]. congruence.
Qed.

(** Collaborators aside, these are all the ways in which [fit_single]
    can fail: an array operation (index out of bounds, shapes that do
    not broadcast, [add_constant] on an empty time axis), the unassigned
    [Tt] of a skipped loop, the unassigned [smod] when a seasonal model
    is configured but no design is passed, and the unassigned [X_sm1]
    when a seasonal break is found under a [season_type] that is none of
    the three known ones. *)
Theorem fit_single_failure_modes self y t m e
    (Hraise : fit_single self y t m = Raise e) :
  e = IndexError \/ e = ShapeMismatch \/ e = ZeroSizeReduction
  \/ (e = UnboundLocalError "Tt" /\ max_iter self <= 1)
  \/ (e = UnboundLocalError "smod" /\ m = None
      /\ season_type self <> "none"%string)
  \/ (e = UnboundLocalError "X_sm1"
      /\ season_type self <> "dummy"%string
      /\ season_type self <> "harmonic"%string
      /\ season_type self <> "none"%string).
Proof.
  apply fit_single_raises in Hraise.
  destruct Hraise as [[H|[H|H]]|[H|[H|(He & Hreq & Hn)]]]; try tauto.
  do 5 right. unfold seasonal_requested in Hreq.
  apply orb_false_iff in Hreq as [Hd Hh].
  apply String.eqb_neq in Hd, Hh. tauto.
Qed.

End FailureModes.

Lemma fit_single_failure_modes_witness :
  let e := UnboundLocalError "Tt" in
  e = IndexError \/ e = ShapeMismatch \/ e = ZeroSizeReduction
  \/ (e = UnboundLocalError "Tt" /\ max_iter (no_season 1) <= 1)
  \/ (e = UnboundLocalError "smod" /\ @None ndarray2 = None
      /\ season_type (no_season 1) <> "none"%string)
  \/ (e = UnboundLocalError "X_sm1"
      /\ season_type (no_season 1) <> "dummy"%string
      /\ season_type (no_season 1) <> "harmonic"%string
      /\ season_type (no_season 1) <> "none"%string).
Proof.
  apply (fit_single_failure_modes (ext := restless_ext)
           (no_season 1) gappy_series six_dates None).
  vm_compute. reflexivity.
Defined.

(** ** The pixel loop of [fit] *)

Lemma pixel_order_elem (c : cube) i j :
  (i, j) ∈ pixel_order c <-> (i < shape1 c)%nat /\ (j < shape2 c)%nat.
Proof.
  unfold pixel_order. rewrite list_elem_of_bind. split.
  - intros (i' & Hj & Hi). apply list_elem_of_bind in Hj as (j' & Hp & Hj).
    apply list_elem_of_singleton in Hp. injection Hp as -> ->.
    apply elem_of_seq in Hi, Hj. lia.
  - intros [Hi Hj]. exists i. split; [|apply elem_of_seq; lia].
    apply list_elem_of_bind. exists j. split; [|apply elem_of_seq; lia].
    apply list_elem_of_singleton. reflexivity.
Qed.

Section PixelLoop.
Context {ext : External}.

Lemma build_seasonal_model_raises self ti e :
  build_seasonal_model self ti = Raise e -> fit_error self e.
Proof.
  unfold build_seasonal_model, fit_error.
  destruct (String.eqb_spec (season_type self) "harmonic") as [Hh|Hh].
  { destruct (Z.eqb_spec (frequency self) 0); [|discriminate].
    intros [= <-]. tauto. }
  destruct (String.eqb_spec (season_type self) "dummy") as [Hd|Hd].
  { destruct (Z.ltb_spec (frequency self - 1) 0) as [Hlt|Hge].
    - intros [= <-]. right. right. left. repeat split; auto. lia.
    - intros Hr. right. right. right. left.
      eapply (raises_in_bind array_error); [apply raises_add_constant| |exact Hr].
      intros; apply raises_in_Ok. }
  destruct (String.eqb_spec (season_type self) "none") as [Hn|Hn]; [discriminate|].
  intros [= <-]. left. split; [reflexivity|]. unfold recognized. tauto.
Qed.

Lemma build_seasonal_model_returns self ti m :
  build_seasonal_model self ti = Ok m ->
  recognized (season_type self)
  /\ (m = None <-> season_type self = "none"%string).
Proof.
  unfold build_seasonal_model, recognized.
  destruct (String.eqb_spec (season_type self) "harmonic") as [Hh|Hh].
  { destruct (Z.eqb_spec (frequency self) 0); [discriminate|].
    intros [= <-]. rewrite Hh. split; [tauto|]. split; discriminate. }
  destruct (String.eqb_spec (season_type self) "dummy") as [Hd|Hd].
  { destruct (Z.ltb_spec (frequency self - 1) 0) as [Hlt|Hge]; [discriminate|].
    intros Hr. bind_inv Hr. injection Hr as <-. rewrite Hd.
    split; [tauto|]. split; discriminate. }
  destruct (String.eqb_spec (season_type self) "none") as [Hn|Hn]; [|discriminate].
  intros [= <-]. tauto.
Qed.


Lemma fit_pixels_raises self c ti smod todo e :
  snd (fit_pixels self c ti smod todo) = Raise e ->
  exists done i j rest,
    todo = done ++ (i, j) :: rest
    /\ fst (fit_pixels self c ti smod todo) = done ++ [(i, j)]
    /\ fit_single self (pixel c i j) ti smod = Raise e
    /\ Forall (pixel_ok self c ti smod) done.
Proof.
  induction todo as [|[i j] todo IH]; simpl; [discriminate|].
  destruct (fit_single self (pixel c i j) ti smod) as [o|e'] eqn:E.
  - destruct (fit_pixels self c ti smod todo) as [seen r]. simpl in *.
    intros H. destruct r as [os|e'']; [discriminate|]. injection H as ->.
    destruct (IH eq_refl) as (done & i' & j' & rest & -> & -> & Hf & Hd).
    exists ((i, j) :: done), i', j', rest. repeat split; auto.
    constructor; [|exact Hd]. unfold pixel_ok. simpl. now rewrite E.
  - simpl. intros [= ->]. exists [], i, j, todo. repeat split; auto.
Qed.

Lemma fit_pixels_fails self c ti smod todo p :
  p ∈ todo -> ~ pixel_ok self c ti smod p ->
  is_ok (snd (fit_pixels self c ti smod todo)) = false.
Proof.
  induction todo as [|[i j] todo IH]; intros Hp Hbad; [inversion Hp|].
  simpl. destruct (fit_single self (pixel c i j) ti smod) as [o|e] eqn:E;
    [|reflexivity].
  apply elem_of_cons in Hp as [->|Hp].
  - exfalso. apply Hbad. unfold pixel_ok. simpl. now rewrite E.
  - specialize (IH Hp Hbad).
    destruct (fit_pixels self c ti smod todo) as [seen r]. simpl in *.
    destruct r; [discriminate | reflexivity].
Qed.

(** Whatever [fit] raises (collaborators aside) is the configuration
    error of an unknown [season_type], the division by a zero frequency
    of the harmonic design, the negative size of the dummy block for a
    frequency below one, an array error, or the unassigned [Tt] of
    [max_iter <= 1]: because [fit] always passes the design that
    [build_seasonal_model] built, [smod] and [X_sm1] are never read
    unassigned. *)
Theorem fit_failure_modes self c ti e
    (Hraise : snd (fit self c ti) = Raise e) :
  fit_error self e.
Proof.
  unfold fit in Hraise.
  destruct (build_seasonal_model self ti) as [m|e0] eqn:Hb.
  2:{ simpl in Hraise. injection Hraise as <-.
      eapply build_seasonal_model_raises; eauto. }
  apply build_seasonal_model_returns in Hb as [Hrec Hnone].
  apply fit_pixels_raises in Hraise as (done & i & j & rest & _ & _ & Hf & _).
  apply fit_single_raises in Hf.
  unfold fit_error.
  destruct Hf as [H|[H|[(_ & Hm & Hs)|(_ & Hreq & Hs)]]].
  - tauto.
  - tauto.
  - exfalso. apply Hs, Hnone, Hm.
  - exfalso. unfold seasonal_requested in Hreq. unfold recognized in Hrec.
    destruct Hrec as [Hd|[Hh|Hn]]; [| |contradiction].
    + rewrite Hd in Hreq. discriminate Hreq.
    + rewrite Hh in Hreq. discriminate Hreq.
Qed.


(** A pixel on which [fit_single] raises ends the whole run: [fit]
    raises that exception, after the pixels before it in loop order and
    without calling [fit_single] on any pixel after it. *)
Theorem fit_stops_at_first_failure self c ti smod e
    (Hbuild : build_seasonal_model self ti = Ok smod)
    (Hraise : snd (fit self c ti) = Raise e) :
  exists done i j rest,
    pixel_order c = done ++ (i, j) :: rest
    /\ fst (fit self c ti) = done ++ [(i, j)]
    /\ fit_single self (pixel c i j) ti smod = Raise e
    /\ Forall (pixel_ok self c ti smod) done.
Proof.
  unfold fit in *. rewrite Hbuild in *. now apply fit_pixels_raises.
Qed.

(** One pixel without any observation makes [fit] fail for the whole
    cube. *)
Theorem fit_fails_on_unobserved_pixel self c ti i j
    (Hi : (i < shape1 c)%nat) (Hj : (j < shape2 c)%nat)
    (Hnan : forall t, PrimFloat.is_nan (cell c t i j) = true) :
  is_ok (snd (fit self c ti)) = false.
Proof.
  unfold fit. destruct (build_seasonal_model self ti) as [m|e0]; [|reflexivity].
  apply (fit_pixels_fails self c ti m _ (i, j)).
  - apply pixel_order_elem. auto.
  - unfold pixel_ok. simpl. rewrite all_missing_raises.
    + destruct (1 <? max_iter self); discriminate.
    + unfold pixel. apply Forall_fmap, Forall_forall. intros t _. apply Hnan.
Qed.

End PixelLoop.

Lemma fit_failure_modes_witness :
  fit_error unknown_season UnknownSeasonalModel.
Proof.
  apply (fit_failure_modes (ext := season_break_ext)
           unknown_season two_pixels six_dates).
  vm_compute. reflexivity.
Defined.


Lemma fit_stops_at_first_failure_witness :
  exists done i j rest,
    pixel_order cube_with_hole = done ++ (i, j) :: rest
    /\ fst (fit (ext := restless_ext) (no_season 10) cube_with_hole three_dates)
       = done ++ [(i, j)]
    /\ fit_single (ext := restless_ext) (no_season 10)
         (pixel cube_with_hole i j) three_dates None
       = Raise ZeroSizeReduction
    /\ Forall (pixel_ok (ext := restless_ext) (no_season 10)
                 cube_with_hole three_dates None) done.
Proof.
  apply (fit_stops_at_first_failure (ext := restless_ext)
           (no_season 10) cube_with_hole three_dates None ZeroSizeReduction).
  - vm_compute. reflexivity.
  - vm_compute. reflexivity.
Defined.

Lemma fit_fails_on_unobserved_pixel_witness :
  is_ok (snd (fit (ext := restless_ext) (no_season 10) cube_with_hole three_dates))
  = false.
Proof.
  apply (fit_fails_on_unobserved_pixel (ext := restless_ext)
           (no_season 10) cube_with_hole three_dates 0%nat 1%nat).
  - simpl. lia.
  - simpl. lia.
  - intros t. reflexivity.
Defined.

(** ** How many passes the loop makes *)

Lemma while_loop_settled {ext : External} self fr fuel st :
  loop_cond self st = false -> while_loop self fr fuel st = Ok (0%nat, st).
Proof. intros H. destruct fuel; simpl; now rewrite H. Qed.

Section Passes.
Context {ext : External}.

(** The loop makes at most [max_iter - 1] passes and counts them in
    [i_iter]; when it stops before that bound, the last pass has left
    the trend breakpoints as it found them. *)
Theorem loop_passes_bounded self y t m fr n st
    (Hrun : run_loop self y t m = Ok (fr, n, st)) :
  Z.of_nat n <= Z.max 0 (max_iter self - 1)
  /\ i_iter st = 1 + Z.of_nat n
  /\ (Z.of_nat n < max_iter self - 1 -> Vt_bp st = CheckTimeTt st).
Proof.
  apply run_loop_count in Hrun as (Hi & Hn & Hc).
  split; [exact Hn|]. split; [exact Hi|]. intros Hlt.
  destruct (list_eq_dec (Vt_bp st) (CheckTimeTt st)) as [Heq|Hne]; [exact Heq|].
  assert (loop_cond self st = true); [|congruence].
  apply loop_cond_true. split; [exact Hne | lia].
Qed.

(** If the first pass finds no trend breakpoint the loop stops after
    it, whatever seasonal breakpoints that pass found: the trend
    breakpoints are empty before and after. *)
Theorem no_trend_break_one_pass self y t m fr st0 st1
    (Hmax : 2 <= max_iter self)
    (Hpre : prelude self y t m = Ok (fr, st0))
    (Hbody : body self fr st0 = Ok st1)
    (Hnone : Vt_bp st1 = []) :
  run_loop self y t m = Ok (fr, 1%nat, st1).
Proof.
  pose proof (prelude_locals _ _ _ _ _ _ Hpre) as (Hv & _ & Hc & Hi & _).
  pose proof (body_bookkeeping _ _ _ _ Hbody) as (_ & Hc1 & _).
  unfold run_loop. rewrite Hpre. simpl.
  assert (loop_cond self st0 = true) as H0.
  { apply loop_cond_true. rewrite Hv, Hc, Hi. split; [discriminate | lia]. }
  assert (loop_cond self st1 = false) as H1.
  { destruct (loop_cond self st1) eqn:C; [|reflexivity].
    apply loop_cond_true in C as [C _]. congruence. }
  destruct (loop_fuel self) as [|fuel] eqn:F; [unfold loop_fuel in F; lia|].
  simpl. rewrite H0, Hbody. simpl.
  now rewrite (while_loop_settled self fr fuel st1 H1).
Qed.

End Passes.

Lemma loop_passes_bounded_witness :
  Z.of_nat 9 <= Z.max 0 (max_iter dummy3 - 1)
  /\ i_iter after_ninth_pass = 1 + Z.of_nat 9
  /\ (Z.of_nat 9 < max_iter dummy3 - 1 ->
      Vt_bp after_ninth_pass = CheckTimeTt after_ninth_pass).
Proof.
  apply (loop_passes_bounded (ext := restless_ext) dummy3 gappy_series
           six_dates smod6 (fst season_break_start) 9%nat after_ninth_pass).
  vm_compute. reflexivity.
Defined.

Lemma no_trend_break_one_pass_witness :
  Wt_bp season_break_next <> []
  /\ run_loop (ext := season_break_ext) dummy3 gappy_series six_dates smod6
     = Ok (fst season_break_start, 1%nat, season_break_next).
Proof.
  split; [vm_compute; discriminate|].
  apply (no_trend_break_one_pass (ext := season_break_ext) dummy3 gappy_series
           six_dates smod6 _ (snd season_break_start)).
  - simpl. lia.
  - vm_compute. reflexivity.
  - vm_compute. reflexivity.
  - vm_compute. reflexivity.
Defined.

(** ** Without a seasonal model *)

Lemma take_idx_replicate {A} n (x : A) idx r :
  take_idx (replicate n x) idx = Ok r -> r = replicate (length idx) x.
Proof.
  intros H. symmetry. apply replicate_as_Forall. split.
  - eapply take_idx_length; eauto.
  - apply Forall_forall. intros a Ha.
    apply (take_idx_elems _ _ _ _ H) in Ha.
    apply elem_of_replicate in Ha as [-> _]. reflexivity.
Qed.

Section NoSeason.
Context {ext : External}.

Lemma seasonal_not_requested self :
  season_type self = "none"%string -> seasonal_requested self = false.
Proof. unfold seasonal_requested. intros ->. reflexivity. Qed.

Lemma prelude_no_season self y t m fr st0 :
  season_type self = "none"%string ->
  prelude self y t m = Ok (fr, st0) ->
  St st0 = Some (np_zeros (nrow fr)).
Proof.
  intros Hs. unfold prelude. rewrite (seasonal_not_requested self Hs).
  intros H. bind_inv H. bind_inv H. bind_inv H. bind_inv H.
  injection H as <- <-. simpl. unfold np_zeros in *.
  apply take_idx_replicate in E0. apply take_idx_length in E1.
  rewrite E0, E1. reflexivity.
Qed.

Lemma body_no_season self fr st st' :
  season_type self = "none"%string ->
  body self fr st = Ok st' ->
  St st' = Some (np_zeros (nrow fr))
  /\ Wt_bp st' = Wt_bp st
  /\ forall s, St st = Some s -> exists tt, trend_step self fr s = Ok (tt, Vt_bp st').
Proof.
  intros Hs. unfold body, season_step. rewrite Hs.
  change (String.eqb "none" "none") with true. cbv iota.
  intros H. bind_inv H. apply read_inv in E.
  bind_inv H. destruct a0 as [tt vb]. simpl in H.
  bind_inv H. bind_inv H. injection H as <-. simpl.
  split; [reflexivity|]. split; [reflexivity|].
  intros s Hs'. rewrite E in Hs'. injection Hs' as <-. eauto.
Qed.

Lemma while_loop_no_season self fr fuel st n st' :
  season_type self = "none"%string ->
  St st = Some (np_zeros (nrow fr)) ->
  while_loop self fr fuel st = Ok (n, st') ->
  (n <= 2)%nat /\ Wt_bp st' = Wt_bp st /\ St st' = Some (np_zeros (nrow fr)).
Proof.
  intros Hs HJ H.
  destruct fuel as [|fuel]; simpl in H.
  { destruct (loop_cond self st); injection H as <- <-; auto. }
  destruct (loop_cond self st); [|injection H as <- <-; auto].
  bind_inv H. rename a into st1, E into Hb1.
  bind_inv H. destruct a as [k s]. injection H as <- <-.
  destruct (body_no_season _ _ _ _ Hs Hb1) as (HJ1 & HW1 & HT1).
  destruct (HT1 _ HJ) as [tt1 Htt1].
  destruct fuel as [|fuel]; simpl in E.
  { destruct (loop_cond self st1); injection E as <- <-; (split; [lia | auto]). }
  destruct (loop_cond self st1); [|injection E as <- <-; (split; [lia | auto])].
  bind_inv E. rename a into st2, E0 into Hb2.
  bind_inv E. destruct a as [k' s']. injection E as <- <-.
  destruct (body_no_season _ _ _ _ Hs Hb2) as (HJ2 & HW2 & HT2).
  destruct (HT2 _ HJ1) as [tt2 Htt2].
  pose proof (body_bookkeeping _ _ _ _ Hb2) as (_ & Hc2 & _).
  assert (loop_cond self st2 = false) as Hstop.
  { destruct (loop_cond self st2) eqn:C; [|reflexivity].
    apply loop_cond_true in C as [C _]. congruence. }
  rewrite (while_loop_settled self fr fuel st2 Hstop) in E0.
  injection E0 as <- <-. split; [lia|]. split; [congruence | exact HJ2].
Qed.

(** With [season_type = "none"] the seasonal estimate is zero before
    and after every pass, so the second pass repeats the trend
    regression of the first and finds the same breakpoints: the loop
    makes at most two passes, whatever [max_iter] is. *)
Theorem no_season_at_most_two_passes self y t m fr n st
    (Hs : season_type self = "none"%string)
    (Hrun : run_loop self y t m = Ok (fr, n, st)) :
  (n <= 2)%nat.
Proof.
  apply run_loop_inv in Hrun as (st0 & Hp & Hw).
  pose proof (prelude_no_season _ _ _ _ _ _ Hs Hp) as HJ.
  now destruct (while_loop_no_season _ _ _ _ _ _ Hs HJ Hw).
Qed.

(** With [season_type = "none"] every returned output has a Season
    array that is zero at the observed dates and [nan] at the missing
    ones, a seasonal breakpoint array of zeros, and a seasonal
    breakpoint count of zero. *)
Theorem no_season_output self y t m out
    (Hs : season_type self = "none"%string)
    (Hret : fit_single self y t m = Ok out) :
  n_Wt_bp out = 0%nat
  /\ Wt_bp_arr out = replicate (length y) 0
  /\ forall j x, y !! j = Some x ->
        St_n out !! j = Some (if PrimFloat.is_nan x then PrimFloat.nan else fzero).
Proof.
  apply fit_single_parts in Hret as (fr & n & st & Hrun & Hfin & HN & Hmap).
  apply run_loop_inv in Hrun as (st0 & Hp & Hw).
  pose proof (prelude_no_season _ _ _ _ _ _ Hs Hp) as HJ.
  pose proof (prelude_locals _ _ _ _ _ _ Hp) as (_ & HW0 & _).
  destruct (while_loop_no_season _ _ _ _ _ _ Hs HJ Hw) as (_ & HW & HS).
  rewrite HW0 in HW.
  apply finalize_inv in Hfin
    as (tt & ss & nn & vb & wb & _ & ES & _ & _ & H2 & _ & _ & Hwb & _ & Hwa & _ & Hnw).
  rewrite HW in Hwb, Hnw. injection Hwb as <-.
  rewrite HS in ES. injection ES as <-.
  rewrite HN, Hmap in H2. rewrite HN in Hwa.
  split; [exact Hnw|]. split.
  - unfold setitem_prefix in Hwa. simpl in Hwa. injection Hwa as <-. reflexivity.
  - apply setitem_nan_map in H2 as (_ & _ & _ & Hobs & Hnan).
    intros j x Hj. destruct (PrimFloat.is_nan x) eqn:Ex.
    + eapply Hnan; eauto.
    + destruct (Hobs j x Hj Ex) as (z & Hz & Hin).
      unfold np_zeros in Hin. apply elem_of_replicate in Hin as [-> _]. exact Hz.
Qed.

End NoSeason.

Lemma no_season_at_most_two_passes_witness :
  exists fr n st,
    run_loop (ext := restless_ext) (no_season 10) gappy_series six_dates None
    = Ok (fr, n, st)
    /\ (n <= 2)%nat.
Proof.
  eexists. eexists. eexists. split; [vm_compute; reflexivity|].
  eapply (no_season_at_most_two_passes (ext := restless_ext) (no_season 10)
            gappy_series six_dates None).
  - reflexivity.
  - vm_compute. reflexivity.
Defined.

Lemma no_season_output_witness :
  n_Wt_bp no_season_out = 0%nat
  /\ Wt_bp_arr no_season_out = replicate (length gappy_series) 0
  /\ forall j x, gappy_series !! j = Some x ->
        St_n no_season_out !! j
        = Some (if PrimFloat.is_nan x then PrimFloat.nan else fzero).
Proof.
  apply (no_season_output (ext := restless_ext) (no_season 10)
           gappy_series six_dates None no_season_out).
  - reflexivity.
  - vm_compute. reflexivity.
Defined.

(** ** The compaction before the loop *)

Lemma getitem_nonneg {A} (a : list A) z :
  0 <= z ->
  getitem a z = match a !! Z.to_nat z with
                | Some x => Ok x
                | None => Raise IndexError
                end.
Proof.
  intros Hz. unfold getitem, norm_index.
  destruct (Z.leb_spec 0 z); [|lia].
  destruct (Z.ltb_spec z (Z.of_nat (length a))) as [Hlt|Hge]; simpl.
  - reflexivity.
  - destruct (Z.leb_spec (- Z.of_nat (length a)) z), (Z.ltb_spec z 0);
      simpl; try lia; rewrite (proj2 (lookup_ge_None a (Z.to_nat z)));
      try reflexivity; lia.
Qed.

Lemma take_idx_nan_map_from {A} (pre a : list A) (y : vec) :
  length a = length y ->
  take_idx (pre ++ a) (nan_map_from (Z.of_nat (length pre)) y)
  = Ok (mask_filter a (map observed y)).
Proof.
  revert pre a. induction y as [|v y IH]; intros pre a Hlen.
  - destruct a; [reflexivity | discriminate].
  - destruct a as [|x0 a]; [discriminate|]. simpl in Hlen.
    assert (Hnext : take_idx (pre ++ x0 :: a)
                      (nan_map_from (Z.of_nat (length pre) + 1) y)
                    = Ok (mask_filter a (map observed y))).
    { specialize (IH (pre ++ [x0]) a ltac:(lia)).
      rewrite <- app_assoc, length_app in IH. simpl in IH.
      replace (Z.of_nat (length pre + 1)) with (Z.of_nat (length pre) + 1) in IH by lia.
      exact IH. }
    simpl. unfold observed at 1.
    destruct (PrimFloat.is_nan v); simpl; [exact Hnext|].
    unfold take_idx in *. simpl.
    rewrite getitem_nonneg by lia. rewrite Nat2Z.id, list_lookup_middle by reflexivity.
    simpl. rewrite Hnext. reflexivity.
Qed.

(** Reading an array as long as the series through the index map keeps
    the entries at the observed positions, in order. *)
Lemma take_idx_create_nan_map {A} (a : list A) (y : vec) :
  length a = length y ->
  take_idx a (create_nan_map y) = Ok (mask_filter a (map observed y)).
Proof. intros H. exact (take_idx_nan_map_from [] a y H). Qed.

Lemma mask_filter_self (y : vec) :
  mask_filter y (map observed y) = List.filter observed y.
Proof.
  induction y as [|v y IH]; simpl; [reflexivity|].
  destruct (observed v); now rewrite IH.
Qed.

Lemma mask_filter_all {A} (a : list A) (mask : list bool) :
  length a = length mask -> Forall (fun b => b = true) mask -> mask_filter a mask = a.
Proof.
  revert mask. induction a as [|x a IH]; intros [|b mask] Hlen Hall; simpl;
    try reflexivity; try discriminate.
  inversion Hall as [|? ? -> Hrest]; subst. f_equal. apply IH; [simpl in Hlen; lia | exact Hrest].
Qed.

Lemma take_idx_raises_index {A} (a : list A) idx e :
  take_idx a idx = Raise e -> e = IndexError.
Proof.
  unfold take_idx. revert e. induction idx as [|i idx IH]; intros e; simpl; [discriminate|].
  destruct (getitem a i) as [x|e'] eqn:E; simpl.
  - destruct (mapM (getitem a) idx) as [r|e'']; simpl; [discriminate|].
    intros [= <-]. now apply IH.
  - intros [= <-]. unfold getitem in E.
    destruct (norm_index (length a) i) as [k|e''] eqn:En; simpl in E.
    + destruct (a !! k); congruence.
    + injection E as <-. unfold norm_index in En.
      destruct (_ && _); [discriminate|]. destruct (_ && _); congruence.
Qed.

Lemma take_idx_agree {A} (a a' : list A) idx :
  (forall k z, idx !! k = Some z -> 0 <= z /\ a !! Z.to_nat z = a' !! Z.to_nat z) ->
  take_idx a idx = take_idx a' idx.
Proof.
  unfold take_idx. induction idx as [|i idx IH]; intros H; simpl; [reflexivity|].
  destruct (H 0%nat i eq_refl) as [Hi Heq].
  rewrite !getitem_nonneg, Heq by exact Hi.
  rewrite IH; [reflexivity|]. intros k z Hk. apply (H (S k) z Hk).
Qed.

Lemma take_idx_agree_on_observed {A} (y : vec) (a a' : list A) :
  agree_on_observed y a a' ->
  take_idx a (create_nan_map y) = take_idx a' (create_nan_map y).
Proof.
  intros H. apply take_idx_agree. intros k z Hk.
  pose proof (create_nan_map_range _ _ _ Hk).
  apply create_nan_map_observed in Hk as (x & Hx & Hnan).
  split; [lia|]. eapply H; eauto.
Qed.

Section Compaction.
Context {ext : External}.

(** On every well-formed input (dates, seasonal design and STL seed as
    long as the series) the lines before the loop succeed; the
    compacted observations are the observed values of the series in
    their order, none of them missing, and the compacted dates are the
    dates at the same positions, so that the mask [~np.isnan(Yt)] of
    line 235 selects every date. *)
Theorem compaction_keeps_observations self y t m
    (Ht : length t = length y)
    (Hseed : length (STL_seasonal y (frequency self)) = length y)
    (Hm : forall x, m = Some x -> nrows x = length y) :
  exists fr st0,
    prelude self y t m = Ok (fr, st0)
    /\ Yt fr = List.filter observed y
    /\ ti fr = mask_filter t (map observed y)
    /\ nrow fr = length (create_nan_map y)
    /\ Forall (fun x => PrimFloat.is_nan x = false) (Yt fr)
    /\ take_mask (ti fr) (map observed (Yt fr)) = Ok (ti fr).
Proof.
  destruct (prelude_succeeds self y t m Ht Hseed Hm) as (fr & st0 & Hp).
  exists fr, st0. split; [exact Hp|].
  pose proof (prelude_sized _ _ _ _ _ _ Hp) as ((HY & HT & HN) & _).
  pose proof (prelude_locals _ _ _ _ _ _ Hp) as (_ & _ & _ & _ & _ & _ & _ & _ & Hmap).
  unfold prelude in Hp.
  rewrite (take_idx_create_nan_map t y Ht) in Hp. simpl in Hp.
  bind_inv Hp. rewrite (take_idx_create_nan_map y y eq_refl) in Hp. simpl in Hp.
  bind_inv Hp. injection Hp as <- _. simpl in *.
  assert (Hobs : Forall (fun x => PrimFloat.is_nan x = false) (List.filter observed y)).
  { apply Forall_forall. intros x Hx. apply list_elem_of_In, filter_In in Hx as [_ Hx].
    unfold observed in Hx. now apply negb_true_iff in Hx. }
  rewrite mask_filter_self in *.
  split; [reflexivity|]. split; [reflexivity|]. split; [congruence|].
  split; [exact Hobs|].
  unfold take_mask. rewrite length_map, HT, <- HY, Nat.eqb_refl.
  f_equal. apply mask_filter_all.
  - rewrite length_map. congruence.
  - apply Forall_fmap. eapply Forall_impl; [exact Hobs|].
    intros x Hx. simpl. unfold observed. now rewrite Hx.
Qed.

(** If an observed value has no date, because the dates are fewer than
    the series is long, [fit_single] raises [IndexError]. *)
Theorem dates_too_short self y t m j x
    (Hj : y !! j = Some x)
    (Hobs : PrimFloat.is_nan x = false)
    (Hshort : (length t <= j)%nat) :
  fit_single self y t m = Raise IndexError.
Proof.
  destruct (create_nan_map_complete y j x Hj Hobs) as [k Hk].
  unfold fit_single, run_loop, prelude.
  destruct (take_idx t (create_nan_map y)) as [r|e] eqn:E.
  - exfalso. destruct (mapM_lookup _ _ _ _ _ E Hk) as (b & _ & Hb).
    rewrite getitem_nonneg in Hb by lia.
    rewrite Nat2Z.id, (proj2 (lookup_ge_None t j)) in Hb by exact Hshort.
    discriminate Hb.
  - simpl. now rewrite (take_idx_raises_index _ _ _ E).
Qed.

(** What the dates and the rows of the seasonal design are at the
    missing positions of the series does not matter: inputs that agree
    at the observed positions give the same result. *)
Theorem missing_positions_ignored self y t t' m m'
    (Ht : agree_on_observed y t t')
    (Hm : designs_agree y m m') :
  fit_single self y t m = fit_single self y t' m'.
Proof.
  assert (Hp : prelude self y t m = prelude self y t' m').
  { unfold prelude. rewrite (take_idx_agree_on_observed y t t' Ht).
    destruct m as [x|], m' as [x'|]; simpl in Hm; try contradiction; [|reflexivity].
    destruct Hm as [Hc Hr].
    now rewrite (take_idx_agree_on_observed y _ _ Hr), Hc. }
  unfold fit_single, run_loop. now rewrite Hp.
Qed.

End Compaction.

Lemma designs_agree_refl y m : designs_agree y m m.
Proof. destruct m; simpl; [|exact I]. split; [reflexivity|]. intros j x _ _. reflexivity. Qed.

Lemma compaction_keeps_observations_witness :
  exists fr st0,
    prelude (ext := season_break_ext) dummy3 gappy_series six_dates smod6 = Ok (fr, st0)
    /\ Yt fr = List.filter observed gappy_series
    /\ ti fr = mask_filter six_dates (map observed gappy_series)
    /\ nrow fr = length (create_nan_map gappy_series)
    /\ Forall (fun x => PrimFloat.is_nan x = false) (Yt fr)
    /\ take_mask (ti fr) (map observed (Yt fr)) = Ok (ti fr).
Proof.
  apply (compaction_keeps_observations (ext := season_break_ext)
           dummy3 gappy_series six_dates smod6).
  - reflexivity.
  - reflexivity.
  - intros x H. vm_compute in H. injection H as <-. reflexivity.
Defined.

Lemma dates_too_short_witness :
  fit_single (ext := season_break_ext) dummy3 gappy_series three_dates smod6
  = Raise IndexError.
Proof.
  apply (dates_too_short (ext := season_break_ext) dummy3 gappy_series
           three_dates smod6 3%nat 2%float).
  - reflexivity.
  - reflexivity.
  - simpl. lia.
Defined.

Lemma missing_positions_ignored_witness :
  fit_single (ext := season_break_ext) dummy3 gappy_series six_dates smod6
  = fit_single (ext := season_break_ext) dummy3 gappy_series other_dates smod6.
Proof.
  apply (missing_positions_ignored (ext := season_break_ext)).
  - intros j x Hj Hx.
    do 6 (destruct j as [|j];
          [simpl in Hj; injection Hj as <-;
           first [reflexivity | vm_compute in Hx; discriminate Hx] | ]).
    discriminate Hj.
  - apply designs_agree_refl.
Defined.

(** ** The outputs on the original time axis *)




Section OriginalAxis.
Context {ext : External}.




(** Every entry that counts in a returned breakpoint array, trend or
    seasonal, is the position of an observed value of the series (for
    series of at most [2^31] dates, where [int32] holds every index). *)
Theorem reported_breakpoints_observed self y t m out
    (Hret : fit_single self y t m = Ok out)
    (HN : Z.of_nat (length y) <= 2 ^ 31) :
  (forall k b, (k < n_Vt_bp out)%nat -> Vt_bp_arr out !! k = Some b ->
     0 <= b /\ exists x, y !! Z.to_nat b = Some x /\ PrimFloat.is_nan x = false)
  /\ (forall k b, (k < n_Wt_bp out)%nat -> Wt_bp_arr out !! k = Some b ->
     0 <= b /\ exists x, y !! Z.to_nat b = Some x /\ PrimFloat.is_nan x = false).
Proof.
  apply fit_single_parts in Hret as (fr & n & st & _ & Hfin & HNr & Hmap).
  apply finalize_inv in Hfin
    as (tt & ss & nn & vb & wb & _ & _ & _ & _ & _ & _ & Hv & Hw & Hva & Hwa & Hnv & Hnw).
  rewrite HNr in Hva, Hwa. rewrite Hmap in Hv, Hw.
  assert (Hgen : forall idx bp arr,
            take_idx (create_nan_map y) idx = Ok bp ->
            setitem_prefix (replicate (length y) 0) (length bp) bp = Ok arr ->
            forall k b, (k < length idx)%nat -> arr !! k = Some b ->
              0 <= b /\ exists x, y !! Z.to_nat b = Some x /\ PrimFloat.is_nan x = false).
  { intros idx bp arr Ht Hs k b Hk Hb.
    destruct (breakpoint_array_padded _ _ _ _ Ht Hs) as (_ & _ & _ & _ & _ & Htk).
    specialize (Htk HN).
    assert (Hin : b ∈ bp).
    { rewrite <- Htk. apply list_elem_of_lookup. exists k.
      now rewrite lookup_take_lt. }
    apply (take_idx_elems _ _ _ _ Ht) in Hin.
    apply list_elem_of_lookup_1 in Hin as [k' Hk'].
    split; [apply create_nan_map_range in Hk'; lia|].
    eapply create_nan_map_observed; eauto. }
  rewrite Hnv, Hnw. split; eapply Hgen; eauto.
Qed.

(** The contract of the least-squares fit in the design document: as
    many fitted values as responses, as many predictions as rows. *)
Hypothesis predict_own :
  forall y X, length (predict (OLS_fit y X) None) = length y.
Hypothesis predict_new :
  forall y X X', length (predict (OLS_fit y X) (Some X')) = nrows X'.



End OriginalAxis.

Lemma reported_breakpoints_observed_witness :
  (forall k b, (k < n_Vt_bp season_break_out)%nat ->
     Vt_bp_arr season_break_out !! k = Some b ->
     0 <= b /\ exists x, gappy_series !! Z.to_nat b = Some x
                         /\ PrimFloat.is_nan x = false)
  /\ (forall k b, (k < n_Wt_bp season_break_out)%nat ->
     Wt_bp_arr season_break_out !! k = Some b ->
     0 <= b /\ exists x, gappy_series !! Z.to_nat b = Some x
                         /\ PrimFloat.is_nan x = false).
Proof.
  apply (reported_breakpoints_observed (ext := season_break_ext)
           dummy3 gappy_series six_dates smod6 season_break_out).
  - vm_compute. reflexivity.
  - simpl. lia.
Defined.


Section BreakpointOrder.
Context {ext : External}.

(** Remapping keeps the trend breakpoints in their order and never
    moves one to an earlier index: of two compacted breakpoints
    [i1 < i2] the reported ones satisfy [i1 <= b1 < b2] (for series of
    at most [2^31] dates). *)
Theorem trend_breakpoints_keep_order self y t m out fr n st
    (Hrun : run_loop self y t m = Ok (fr, n, st))
    (Hret : fit_single self y t m = Ok out)
    (HN : Z.of_nat (length y) <= 2 ^ 31) :
  forall k1 k2 i1 i2,
    Vt_bp st !! k1 = Some i1 -> Vt_bp st !! k2 = Some i2 -> 0 <= i1 < i2 ->
    exists b1 b2,
      Vt_bp_arr out !! k1 = Some b1 /\ Vt_bp_arr out !! k2 = Some b2
      /\ i1 <= b1 /\ b1 < b2.
Proof.
  apply fit_single_parts in Hret as (fr' & n' & st' & Hrun' & Hfin & HNr & Hmap).
  rewrite Hrun in Hrun'. injection Hrun' as <- <- <-.
  apply finalize_inv in Hfin
    as (tt & ss & nn & vb & wb & _ & _ & _ & _ & _ & _ & Hv & _ & Hva & _ & Hnv & _).
  rewrite HNr in Hva. rewrite Hmap in Hv.
  destruct (breakpoint_array_padded _ _ _ _ Hv Hva) as (_ & Hcount & _ & _ & _ & Htk).
  specialize (Htk HN).
  intros k1 k2 i1 i2 H1 H2 Hi.
  destruct (mapM_lookup _ _ _ _ _ Hv H1) as (b1 & Hb1 & Hg1).
  destruct (mapM_lookup _ _ _ _ _ Hv H2) as (b2 & Hb2 & Hg2).
  rewrite getitem_nonneg in Hg1, Hg2 by lia.
  destruct (create_nan_map y !! Z.to_nat i1) as [z1|] eqn:E1; [|discriminate].
  destruct (create_nan_map y !! Z.to_nat i2) as [z2|] eqn:E2; [|discriminate].
  injection Hg1 as ->. injection Hg2 as ->.
  exists b1, b2.
  assert (Harr : forall k b, vb !! k = Some b -> Vt_bp_arr out !! k = Some b).
  { intros k b Hk. rewrite <- Htk in Hk.
    apply lookup_take_Some in Hk as [Hk _]. exact Hk. }
  split; [now apply Harr|]. split; [now apply Harr|]. split.
  - apply nan_map_from_lookup in E1 as (j & x & _ & _ & -> & Hle). lia.
  - eapply (nan_map_from_increasing 0 y (Z.to_nat i1) (Z.to_nat i2)); eauto. lia.
Qed.

End BreakpointOrder.

Lemma trend_breakpoints_keep_order_witness :
  Vt_bp (snd two_breaks_run) = [1; 3]
  /\ exists b1 b2,
      Vt_bp_arr two_breaks_out !! 0%nat = Some b1
      /\ Vt_bp_arr two_breaks_out !! 1%nat = Some b2
      /\ 1 <= b1 /\ b1 < b2.
Proof.
  split; [vm_compute; reflexivity|].
  apply (trend_breakpoints_keep_order (ext := two_breaks_ext) dummy3 gappy_series
           six_dates smod6 two_breaks_out (fst (fst two_breaks_run))
           (snd (fst two_breaks_run)) (snd two_breaks_run)
           ltac:(vm_compute; reflexivity) ltac:(vm_compute; reflexivity)
           ltac:(simpl; lia) 0%nat 1%nat 1 3).
  - vm_compute. reflexivity.
  - vm_compute. reflexivity.
  - lia.
Defined.

(** ** When [build_seasonal_model] returns *)



Section SeasonalModel.
Context {ext : External}.


End SeasonalModel.
